(** * Micropaths and virtual gate crossings (spark-esri notebooks)

    A shallow embedding of the Spark SQL views and of the partition function
    [func] of the gate-crossing notebook, with the noise filter it shares with
    the micropath notebook (whose rows carry one more column, the hour [h],
    which no query computes with).

    - A [double] column is a binary64 float ([PrimFloat.float]); a [bigint]
      column is a [Z] with the 64-bit wrap-around of its arithmetic written
      out; a [string] column is a [string].  Columns are taken non-null, as
      the cursors deliver them; the only NULL that the queries can create
      themselves (a division by zero) is modelled with [option].
    - A view is the list of its rows.  The order of the rows of a view is not
      fixed by Spark; no statement below depends on it.
    - [order by t] inside a window keeps rows with equal [t] in an arbitrary
      order.  The views are therefore parametrised by the ordering function,
      of which only "sorted permutation" is assumed ([WindowOrder]);
      [sort_by_t] is one such function.
    - shapely is not part of the notebooks: [intersection] is a parameter of
      [func]; what is kept of its result is whether it is empty and whether it
      is a [Point] (the only geometry with the attributes [x] and [y]). *)

From Stdlib Require Import ZArith List Bool String Ascii Lia.
From Stdlib Require Import Permutation Sorted.
From Stdlib Require Import Floats.
From Stdlib Require OrderedTypeEx.
Import ListNotations.

Local Open Scope Z_scope.

(** ** Scalars of Spark SQL *)

Module Sql.

(** Two's complement reading of the low 64 bits: [bigint] arithmetic. *)
Definition wrap64 (z : Z) : Z := (z + 2 ^ 63) mod 2 ^ 64 - 2 ^ 63.

Definition long_sub (a b : Z) : Z := wrap64 (a - b).

(** [cast(z as double)]: the nearest binary64, ties to even. *)
Definition cast_double (z : Z) : float :=
  SF2Prim (binary_normalize prec emax z 0 false).

(** [a / b] with [a double] and [b bigint]: [b] is cast to [double]; a zero
    divisor gives NULL.  Only the bigint 0 casts to the double 0, so the
    test is made on [b]. *)
Definition div (a : float) (b : Z) : option float :=
  if b =? 0 then None else Some (a / cast_double b)%float.

(** [v between lo and hi] is [lo <= v and v <= hi]. *)
Definition between (v lo hi : float) : bool :=
  ((lo <=? v) && (v <=? hi))%float.

(** [v < c] for a nullable [v]: NULL is not true. *)
Definition lt_null (v : option float) (c : float) : bool :=
  match v with
  | Some a => (a <? c)%float
  | None => false
  end.

(** The values of [unix_timestamp]: a timestamp is a 64-bit count of
    microseconds, of which [unix_timestamp] gives the whole seconds. *)
Definition epoch_range (t : Z) : Prop :=
  exists micros, - 2 ^ 63 <= micros < 2 ^ 63 /\ t = micros / 1000000.

End Sql.

(** ** Rows of the views *)

(** v0: [mmsi string, x double, y double, t bigint]. *)
Record V0 : Type := mkV0 {
  mmsi : string;
  x : float;
  y : float;
  t : Z
}.

(** v1: the current record and the leading record. *)
Record V1 : Type := mkV1 {
  v1_mmsi : string;
  x1 : float;
  y1 : float;
  t1 : Z;
  x2 : float;
  y2 : float;
  t2 : Z
}.

(** v2: [select *, (x2-x1) dx, (y2-y1) dy, (t2-t1) dt]. *)
Record V2 : Type := mkV2 {
  v2_row : V1;
  dx : float;
  dy : float;
  dt : Z
}.

(** v3: [mmsi, x1, y1, x2, y2, dd, dt]. *)
Record V3 : Type := mkV3 {
  v3_mmsi : string;
  v3_x1 : float;
  v3_y1 : float;
  v3_x2 : float;
  v3_y2 : float;
  dd : float;
  v3_dt : Z
}.

(** v4: [select *, dd/dt mps]. *)
Record V4 : Type := mkV4 {
  v4_row : V3;
  mps : option float
}.

(** df1: [x1, y1, x2, y2], the micropath handed to [func]. *)
Record Micropath : Type := mkMicropath {
  m_x1 : float;
  m_y1 : float;
  m_x2 : float;
  m_y2 : float
}.

(** ** The window [partition by mmsi order by t] *)

(** The distinct values of [mmsi]: one partition each. *)
Definition entities (rows : list V0) : list string :=
  nodup string_dec (map mmsi rows).

Definition partition_of (e : string) (rows : list V0) : list V0 :=
  filter (fun r => String.eqb (mmsi r) e) rows.

(** What an [order by t] may do to a partition. *)
Record WindowOrder (ord : list V0 -> list V0) : Prop := {
  ord_perm : forall p, Permutation (ord p) p;
  ord_sorted : forall p, Sorted (fun a b => t a <= t b) (ord p)
}.

(** One [order by t]: insertion sort, stable. *)
Fixpoint insert_by_t (r : V0) (p : list V0) : list V0 :=
  match p with
  | [] => [r]
  | r' :: p' => if t r <=? t r' then r :: p else r' :: insert_by_t r p'
  end.

Definition sort_by_t (p : list V0) : list V0 :=
  fold_right insert_by_t [] p.

(** [lead(x,1,0.0)], [lead(y,1,0.0)], [lead(t,1,0)] over an ordered
    partition: the next row, and the defaults after the last one. *)
Definition lead (rest : list V0) : float * float * Z :=
  match rest with
  | r' :: _ => (x r', y r', t r')
  | [] => (0%float, 0%float, 0)
  end.

Fixpoint lead_rows (p : list V0) : list V1 :=
  match p with
  | [] => []
  | r :: rest =>
      let '(lx, ly, lt) := lead rest in
      mkV1 (mmsi r) (x r) (y r) (t r) lx ly lt :: lead_rows rest
  end.

Section Views.

Variable order_by_t : list V0 -> list V0.

(** [select mmsi, x x1, y y1, t t1, lead(..) x2, lead(..) y2, lead(..) t2
    from v0]. *)
Definition v1 (v0 : list V0) : list V1 :=
  flat_map (fun e => lead_rows (order_by_t (partition_of e v0))) (entities v0).

(** [select *,(x2-x1) dx,(y2-y1) dy,(t2-t1) dt from v1 where t1 < t2]. *)
Definition enrich (r : V1) : V2 :=
  mkV2 r (x2 r - x1 r)%float (y2 r - y1 r)%float (Sql.long_sub (t2 r) (t1 r)).

Definition v2 (v0 : list V0) : list V2 :=
  map enrich (filter (fun r => t1 r <? t2 r) (v1 v0)).

(** [select mmsi,x1,y1,x2,y2,sqrt(dx*dx+dy*dy) dd,dt from v2]. *)
Definition distance (r : V2) : V3 :=
  let s := v2_row r in
  mkV3 (v1_mmsi s) (x1 s) (y1 s) (x2 s) (y2 s)
       (sqrt (dx r * dx r + dy r * dy r))%float (dt r).

Definition v3 (v0 : list V0) : list V3 := map distance (v2 v0).

(** [select *,dd/dt mps from v3]. *)
Definition speed (r : V3) : V4 := mkV4 r (Sql.div (dd r) (v3_dt r)).

Definition v4 (v0 : list V0) : list V4 := map speed (v3 v0).

End Views.

(** ** Noise filter *)

(** [where dd between 1 and 1500 and mps < 25 and dt < 130]. *)
Definition clean (r : V4) : bool :=
  Sql.between (dd (v4_row r)) (Sql.cast_double 1) (Sql.cast_double 1500)
  && Sql.lt_null (mps r) (Sql.cast_double 25)
  && (v3_dt (v4_row r) <? 130).

(** The micropath notebook keeps the whole row (its view v5). *)
Definition v5 (rows : list V4) : list V4 := filter clean rows.

(** The gate notebook keeps [x1,y1,x2,y2]. *)
Definition select_path (r : V4) : Micropath :=
  let s := v4_row r in mkMicropath (v3_x1 s) (v3_y1 s) (v3_x2 s) (v3_y2 s).

Definition df1 (rows : list V4) : list Micropath :=
  map select_path (filter clean rows).

(** ** Python results *)

Inductive PyError : Type :=
| IndexError       (* [coords[0]] of an empty coordinate sequence *)
| AttributeError   (* [.x] of a geometry that is not a point *)
| ValueError.      (* [toDF] of an RDD without rows: "RDD is empty" *)

Inductive Py (A : Type) : Type :=
| Return (a : A)
| Raise (e : PyError).

Arguments Return {A} a.
Arguments Raise {A} e.

Definition bind {A B : Type} (c : Py A) (k : A -> Py B) : Py B :=
  match c with
  | Return a => k a
  | Raise e => Raise e
  end.

Notation "v <- c ;; k" := (bind c (fun v => k))
  (at level 61, c at next level, right associativity).

(** A list comprehension whose body may raise. *)
Fixpoint comprehension {A B : Type} (f : A -> Py B) (l : list A) : Py (list B) :=
  match l with
  | [] => Return []
  | a :: l' => b <- f a ;; bs <- comprehension f l' ;; Return (b :: bs)
  end.

(** A [for] loop whose body yields rows and may raise: the rows of a run
    that raises are lost with the task. *)
Fixpoint for_yield {A B : Type} (f : A -> Py (list B)) (l : list A) : Py (list B) :=
  match l with
  | [] => Return []
  | a :: l' => ys <- f a ;; zs <- for_yield f l' ;; Return (ys ++ zs)
  end.

(** ** Gates and the geometry library *)

Definition Coord : Type := (float * float)%type.

(** The coordinate sequence of a LineString. *)
Definition LineString : Type := list Coord.

(** What [func] reads of the result of [intersection]: [is_empty], and the
    attributes [x] and [y], which only a point has. *)
Inductive Geometry : Type :=
| Empty
| Point (px py : float)
| Other.  (* not empty and not a point: a line, several points *)

(** A row of the broadcast variable: [(GateID, SHAPE@WKB)], decoded. *)
Record GateRow : Type := mkGate {
  GateID : Z;
  shape : LineString
}.

(** A row of df2: [gate_x, gate_y, gate_id, travel_dir]. *)
Record Crossing : Type := mkCrossing {
  gate_x : float;
  gate_y : float;
  gate_id : Z;
  travel_dir : string
}.

Definition NamedGate : Type := (Z * LineString * float * float)%type.

(** [name_geom]: the gate with its line vector, last point minus first. *)
Definition name_geom (_g : GateRow) : Py NamedGate :=
  let coords := shape _g in
  match coords with
  | [] => Raise IndexError
  | head :: _ =>
      let last := List.last coords head in
      let vx := (fst last - fst head)%float in
      let vy := (snd last - snd head)%float in
      Return (GateID _g, coords, vx, vy)
  end.

(** The cross product of the micropath vector and the gate vector. *)
Definition cross (px py gx gy : float) : float := (px * gy - py * gx)%float.

Definition lr_rl (px py gx gy : float) : string :=
  if (cross px py gx gy <? 0)%float then "RL"%string else "LR"%string.

Definition path_of (micropath : Micropath) : LineString :=
  [(m_x1 micropath, m_y1 micropath); (m_x2 micropath, m_y2 micropath)].

Section Func.

(** [gate_geom.intersection(path)]. *)
Variable intersection : LineString -> LineString -> Geometry.

(** The body of the inner loop, for one micropath and one gate. *)
Definition visit (micropath : Micropath) (gate : NamedGate) : Py (list Crossing) :=
  let '(gate_id, gate_geom, gx, gy) := gate in
  let px := (m_x2 micropath - m_x1 micropath)%float in
  let py := (m_y2 micropath - m_y1 micropath)%float in
  match intersection gate_geom (path_of micropath) with
  | Empty => Return []
  | Point qx qy => Return [mkCrossing qx qy gate_id (lr_rl px py gx gy)]
  | Other => Raise AttributeError
  end.

(** [func(partition)], with the value [bv.value] of the broadcast. *)
Definition func (bv : list GateRow) (partition : list Micropath) : Py (list Crossing) :=
  gates <- comprehension name_geom bv ;;
  for_yield (fun micropath => for_yield (visit micropath) gates) partition.

End Func.

(** ** Gate statistics *)

(** A row of GateStats: [gate_id, travel_dir, cnt]. *)
Record GateStat : Type := mkStat {
  stat_gate_id : Z;
  stat_travel_dir : string;
  cnt : Z
}.

Definition Key : Type := (Z * string)%type.

Definition key_of (c : Crossing) : Key := (gate_id c, travel_dir c).

Definition stat_key (s : GateStat) : Key := (stat_gate_id s, stat_travel_dir s).

Definition key_eqb (a b : Key) : bool :=
  (fst a =? fst b) && String.eqb (snd a) (snd b).

Definition key_eq_dec : forall a b : Key, {a = b} + {a <> b}.
Proof. decide equality; [apply string_dec | apply Z.eq_dec]. Defined.

Arguments key_eq_dec : simpl never.

(** [count(1)] of the group of key [k]. *)
Definition count_key (k : Key) (v5 : list Crossing) : Z :=
  Z.of_nat (List.length (filter (fun c => key_eqb (key_of c) k) v5)).

(** [group by gate_id,travel_dir]: one row per distinct key. *)
Definition group_by (v5 : list Crossing) : list GateStat :=
  map (fun k => mkStat (fst k) (snd k) (count_key k v5))
      (nodup key_eq_dec (map key_of v5)).

(** [order by gate_id,travel_dir]: ascending, strings by code point. *)
Definition key_leb (a b : Key) : bool :=
  (fst a <? fst b) || ((fst a =? fst b) && String.leb (snd a) (snd b)).

Fixpoint insert_stat (s : GateStat) (l : list GateStat) : list GateStat :=
  match l with
  | [] => [s]
  | s' :: l' =>
      if key_leb (stat_key s) (stat_key s') then s :: l else s' :: insert_stat s l'
  end.

Definition order_by (l : list GateStat) : list GateStat :=
  fold_right insert_stat [] l.

Definition gate_stats (v5 : list Crossing) : list GateStat :=
  order_by (group_by v5).

(** ** A planar geometry for the examples

    A direct intersection of a line with a two-point micropath in binary64,
    used where a statement is run on concrete lines.  It returns what the
    two lines share: nothing, one point, or more (a common stretch, several
    points).  Like shapely it finds nothing on a line of length zero.  The
    general statements hold for every [intersection]. *)

Module Planar.

Definition det (ux uy vx vy : float) : float := (ux * vy - uy * vx)%float.

Definition fmin (a b : float) : float := if (a <=? b)%float then a else b.
Definition fmax (a b : float) : float := if (a <=? b)%float then b else a.

(** [p] lies on the closed segment [a b]. *)
Definition on_segment (p a b : Coord) : bool :=
  ((det (fst b - fst a) (snd b - snd a) (fst p - fst a) (snd p - snd a) =? 0)
   && (fmin (fst a) (fst b) <=? fst p) && (fst p <=? fmax (fst a) (fst b))
   && (fmin (snd a) (snd b) <=? snd p) && (snd p <=? fmax (snd a) (snd b)))%float.

Definition same (p q : Coord) : bool :=
  ((fst p =? fst q) && (snd p =? snd q))%float.

Fixpoint distinct (l : list Coord) : list Coord :=
  match l with
  | [] => []
  | p :: l' => p :: filter (fun q => negb (same p q)) (distinct l')
  end.

Definition segments (a b c d : Coord) : Geometry :=
  let rx := (fst b - fst a)%float in
  let ry := (snd b - snd a)%float in
  let sx := (fst d - fst c)%float in
  let sy := (snd d - snd c)%float in
  let denom := det rx ry sx sy in
  if (denom =? 0)%float then
    match distinct (filter (fun p => on_segment p c d) [a; b]
                    ++ filter (fun p => on_segment p a b) [c; d]) with
    | [] => Empty
    | [p] => Point (fst p) (snd p)
    | _ => Other
    end
  else
    let qx := (fst c - fst a)%float in
    let qy := (snd c - snd a)%float in
    let u := (det qx qy sx sy / denom)%float in
    let v := (det qx qy rx ry / denom)%float in
    if ((0 <=? u) && (u <=? 1) && (0 <=? v) && (v <=? 1))%float
    then Point (fst a + u * rx)%float (snd a + u * ry)%float
    else Empty.

(** The stretches of a line from vertex to vertex. *)
Fixpoint stretches (g : LineString) : list (Coord * Coord) :=
  match g with
  | a :: (b :: _) as rest => (a, b) :: stretches rest
  | _ => []
  end.

(** What the parts of a line share with the micropath, put together: a
    common stretch or two different points are neither empty nor a point. *)
Fixpoint points_of (parts : list Geometry) : option (list Coord) :=
  match parts with
  | [] => Some []
  | Empty :: parts' => points_of parts'
  | Point px py :: parts' =>
      match points_of parts' with
      | Some l => Some ((px, py) :: l)
      | None => None
      end
  | Other :: _ => None
  end.

Definition union (parts : list Geometry) : Geometry :=
  match points_of parts with
  | None => Other
  | Some l =>
      match distinct l with
      | [] => Empty
      | [p] => Point (fst p) (snd p)
      | _ => Other
      end
  end.

(** A gate of any number of vertices against a two-point micropath.  A
    stretch of length zero carries no point of its own and is passed over,
    so a line whose points all coincide meets nothing. *)
Definition intersection (g p : LineString) : Geometry :=
  match p with
  | [c; d] =>
      if same c d then Empty
      else union (map (fun ab => segments (fst ab) (snd ab) c d)
                      (filter (fun ab => negb (same (fst ab) (snd ab)))
                              (stretches g)))
  | _ => Empty
  end.

End Planar.

(** ** The distributed join: [df1.rdd.mapPartitions(func)] *)

(** An RDD is the list of its partitions.  [mapPartitions] runs the function
    on each partition and chains what they yield; a partition that raises
    fails the job. *)
Definition mapPartitions {A B : Type} (f : list A -> Py (list B))
  (rdd : list (list A)) : Py (list B) :=
  for_yield f rdd.

(** [rdd.toDF([names])]: the column types are those of the first row, for
    which the partitions are run until one yields a row.  An RDD without
    rows raises ValueError; a partition that raises fails the job, here or
    when the rows are collected. *)
Definition toDF {B : Type} (rdd : Py (list B)) : Py (list B) :=
  match rdd with
  | Return [] => Raise ValueError
  | Return rows => Return rows
  | Raise e => Raise e
  end.

(** [df2 = df1.rdd.mapPartitions(func).toDF(..).cache()] as [df2.collect()]
    returns it: the view v5 of the gate notebook. *)
Definition df2 (intersection : LineString -> LineString -> Geometry)
  (bv : list GateRow) (rdd : list (list Micropath)) : Py (list Crossing) :=
  toDF (mapPartitions (func intersection bv) rdd).

(** ** Spatial binning (the third notebook) *)

Module Binning.

(** [cell0 = 200.0] and [cell1 = cell0 * 0.5], which the f-string writes
    into the query as the decimal literals [200.0] and [100.0]. *)
Definition cell0 : float := 200.
Definition cell1 : float := (cell0 * 0.5)%float.

(** [cast(d as long)]: towards zero, NaN is 0, out of range is the nearest
    long. *)
Definition cast_long (d : float) : Z :=
  match Prim2SF d with
  | S754_zero _ | S754_nan => 0
  | S754_infinity s => if s then - 2 ^ 63 else 2 ^ 63 - 1
  | S754_finite s m e =>
      let v := Z.shiftl (Zpos m) e in
      if s then Z.max (- v) (- 2 ^ 63) else Z.min v (2 ^ 63 - 1)
  end.

(** [select cast(x/200.0 as long) q, cast(y/200.0 as long) r from v0]: the
    quotient is a double. *)
Definition cell (p : float * float) : Z * Z :=
  (cast_long (fst p / cell0), cast_long (snd p / cell0)).

Definition t (v0 : list (float * float)) : list (Z * Z) := map cell v0.

Definition cell_eq_dec : forall a b : Z * Z, {a = b} + {a <> b}.
Proof. decide equality; apply Z.eq_dec. Defined.

Arguments cell_eq_dec : simpl never.

(** A row of the result: [x, y, pop].  [q*200.0+100.0] is decimal
    arithmetic on a bigint and two decimal literals: it is exact, and its
    value, a whole number, is kept as a [Z]. *)
Record Bin : Type := mkBin {
  bin_x : Z;
  bin_y : Z;
  pop : Z
}.

(** [select q*200.0+100.0 x, r*200.0+100.0 y, least(count(1),400) as pop
    from t group by q,r]. *)
Definition bin_of (cells : list (Z * Z)) (k : Z * Z) : Bin :=
  mkBin (fst k * 200 + 100) (snd k * 200 + 100)
        (Z.min (Z.of_nat (count_occ cell_eq_dec cells k)) 400).

Definition rows (v0 : list (float * float)) : list Bin :=
  map (bin_of (t v0)) (nodup cell_eq_dec (t v0)).

End Binning.

(** ** Notions used by the statements *)

(** The micropaths of one entity in a view over v2 rows. *)
Definition micropaths_of (e : string) (rows : list V2) : list V2 :=
  filter (fun r => String.eqb (v1_mmsi (v2_row r)) e) rows.

(** A candidate row pairs two reports that follow each other in [p]. *)
Definition pairs_consecutive (r : V1) (p : list V0) : Prop :=
  exists before a b after,
    p = before ++ a :: b :: after /\
    r = mkV1 (mmsi a) (x a) (y a) (t a) (x b) (y b) (t b).

(** The micropath travelled the other way. *)
Definition swap (m : Micropath) : Micropath :=
  mkMicropath (m_x2 m) (m_y2 m) (m_x1 m) (m_y1 m).

(** The gate drawn the other way. *)
Definition reverse (g : GateRow) : GateRow :=
  mkGate (GateID g) (rev (shape g)).

Definition opposite (d : string) : string :=
  if String.eqb d "LR" then "RL"%string else "LR"%string.

(** Ascending order of the keys [(gate_id, travel_dir)], strictly. *)
Definition key_lt (a b : Key) : Prop :=
  fst a < fst b \/ (fst a = fst b /\ String.ltb (snd a) (snd b) = true).

(** The sum of a column. *)
Definition total (l : list Z) : Z := fold_right Z.add 0 l.

(** Two binary64 values that are each other's negation; a zero may keep
    its sign. *)
Definition sf_zero (u : spec_float) : bool :=
  match u with S754_zero _ => true | _ => false end.

Definition mirror (u v : spec_float) : Prop :=
  v = SFopp u \/ (sf_zero u = true /\ sf_zero v = true).

(** A zero of either sign, or no number at all. *)
Definition sf_null (u : spec_float) : bool :=
  match u with S754_zero _ | S754_nan => true | _ => false end.

(** A speed that is a finite number: not NULL, not NaN, not infinite. *)
Definition finite_speed (r : V4) : bool :=
  match mps r with
  | Some q => is_finite q
  | None => false
  end.

(** A finite binary64 number: a zero or a number with a mantissa. *)
Definition sf_finite (u : spec_float) : bool :=
  match u with S754_zero _ | S754_finite _ _ _ => true | _ => false end.

(** [halved k x y]: the mantissa of [y] is that of [x] shifted right by [k]
    bits or more. *)
Definition halved (k : Z) (x y : shr_record) : Prop :=
  0 <= shr_m y /\ shr_m y * 2 ^ k <= shr_m x.

(** ** Tactics *)

(** Both values are zeros: the other cases of the two go. *)
Ltac zeros u u' :=
  destruct u as [?| | |]; try discriminate;
  destruct u' as [?| | |]; try discriminate.

(** A list of distinct integer literals has no duplicate. *)
Ltac nodup_Z :=
  repeat (constructor; [simpl; intuition lia|]); constructor.

(** * Properties *)

(** ** The window order *)

Lemma insert_by_t_perm r p : Permutation (insert_by_t r p) (r :: p).
Proof.
  induction p as [|r' p IH]; simpl; [reflexivity|].
  destruct (t r <=? t r'); [reflexivity|].
  rewrite IH. apply perm_swap.
Qed.

Lemma insert_by_t_sorted r p :
  Sorted (fun a b => t a <= t b) p ->
  Sorted (fun a b => t a <= t b) (insert_by_t r p).
Proof.
  induction 1 as [|r' p Hs IH Hd]; simpl.
  - repeat constructor.
  - destruct (t r <=? t r') eqn:E.
    + apply Z.leb_le in E. repeat constructor; assumption.
    + apply Z.leb_gt in E. constructor; [assumption|].
      destruct Hd as [|r'' p' Hr]; simpl.
      * constructor; lia.
      * destruct (t r <=? t r''); constructor; lia.
Qed.

Lemma sort_by_t_order : WindowOrder sort_by_t.
Proof.
  split; induction p as [|r p IH]; simpl.
  - reflexivity.
  - rewrite insert_by_t_perm. now constructor.
  - constructor.
  - now apply insert_by_t_sorted.
Qed.

(** ** Rows of a window *)

Lemma filter_all {A : Type} (f : A -> bool) (l : list A) :
  (forall a, In a l -> f a = true) -> filter f l = l.
Proof.
  induction l as [|a l IH]; simpl; intros H; [reflexivity|].
  rewrite (H a) by now left.
  f_equal. apply IH. intros b Hb. apply H. now right.
Qed.

Lemma filter_none {A : Type} (f : A -> bool) (l : list A) :
  (forall a, In a l -> f a = false) -> filter f l = [].
Proof.
  induction l as [|a l IH]; simpl; intros H; [reflexivity|].
  rewrite (H a) by now left.
  apply IH. intros b Hb. apply H. now right.
Qed.

Lemma filter_comm {A : Type} (f g : A -> bool) (l : list A) :
  filter f (filter g l) = filter g (filter f l).
Proof.
  induction l as [|a l IH]; simpl; [reflexivity|].
  destruct (f a) eqn:Ef, (g a) eqn:Eg; simpl; rewrite ?Ef, ?Eg, IH; reflexivity.
Qed.

Lemma filter_map_swap {A B : Type} (f : B -> bool) (g : A -> B) (l : list A) :
  filter f (map g l) = map g (filter (fun a => f (g a)) l).
Proof.
  induction l as [|a l IH]; simpl; [reflexivity|].
  destruct (f (g a)); simpl; now rewrite IH.
Qed.

(** Every candidate row starts at a report of the partition and ends at a
    report of the partition or at the defaults of [lead]. *)
Lemma lead_rows_origin p r :
  In r (lead_rows p) ->
  exists a, In a p /\ v1_mmsi r = mmsi a /\ t1 r = t a /\
            (t2 r = 0 \/ exists b, In b p /\ t2 r = t b).
Proof.
  revert r. induction p as [|a rest IH]; intros r; simpl; [contradiction|].
  destruct (lead rest) as [[lx ly] lt] eqn:El.
  intros [<-|Hr].
  - exists a; simpl. repeat split; auto.
    destruct rest as [|b rest']; simpl in El; inversion El; subst; auto.
    right. exists b. split; [right; now left|reflexivity].
  - destruct (IH r Hr) as (a' & Ha' & Hm & Ht & H2).
    exists a'. repeat split; auto.
    destruct H2 as [H2|(b & Hb & H2)]; [now left|right; exists b; auto].
Qed.

Lemma filter_flat_map_key (F : string -> list V1) (e : string) (es : list string) :
  NoDup es ->
  (forall k r, In r (F k) -> v1_mmsi r = k) ->
  filter (fun r => String.eqb (v1_mmsi r) e) (flat_map F es)
  = if existsb (String.eqb e) es then F e else [].
Proof.
  intros Hnd HF. induction Hnd as [|k es Hk Hnd IH]; [reflexivity|].
  cbn [flat_map existsb]. rewrite filter_app, IH.
  destruct (String.eqb_spec e k) as [<-|Hne]; cbn [orb].
  - replace (existsb (String.eqb e) es) with false.
    + rewrite app_nil_r. apply filter_all.
      intros r Hr. apply String.eqb_eq. now apply HF.
    + symmetry. apply not_true_is_false. intros H. apply Hk.
      apply existsb_exists in H. destruct H as (k' & Hin & E).
      apply String.eqb_eq in E. now subst.
  - rewrite filter_none; [reflexivity|].
    intros r Hr. apply String.eqb_neq. rewrite (HF k r Hr). congruence.
Qed.

Section Window.

Variable order_by_t : list V0 -> list V0.
Hypothesis order_ok : WindowOrder order_by_t.

Lemma order_in p a : In a (order_by_t p) <-> In a p.
Proof.
  split; apply Permutation_in;
    [|symmetry]; apply (ord_perm _ order_ok).
Qed.

Lemma partition_in e v0 a : In a (partition_of e v0) <-> In a v0 /\ mmsi a = e.
Proof.
  unfold partition_of. rewrite filter_In, String.eqb_eq. reflexivity.
Qed.

Lemma partition_rows_mmsi e v0 r :
  In r (lead_rows (order_by_t (partition_of e v0))) -> v1_mmsi r = e.
Proof.
  intros Hr. destruct (lead_rows_origin _ _ Hr) as (a & Ha & Hm & _).
  apply order_in, partition_in in Ha. now rewrite Hm.
Qed.

(** The rows of v1 that belong to an entity are the rows of its partition. *)
Lemma v1_of_entity e v0 :
  filter (fun r => String.eqb (v1_mmsi r) e) (v1 order_by_t v0)
  = lead_rows (order_by_t (partition_of e v0)).
Proof.
  unfold v1. rewrite filter_flat_map_key.
  - destruct (existsb (String.eqb e) (entities v0)) eqn:Hout; [reflexivity|].
    assert (Hnil : partition_of e v0 = []).
    { apply filter_none. intros a Ha. apply String.eqb_neq. intros He.
      apply not_true_iff_false in Hout. apply Hout, existsb_exists.
      exists e. split; [|apply String.eqb_refl].
      unfold entities. apply nodup_In, in_map_iff. eauto. }
    rewrite Hnil.
    now rewrite (Permutation_nil (Permutation_sym (ord_perm _ order_ok []))).
  - apply NoDup_nodup.
  - intros k r. apply partition_rows_mmsi.
Qed.

Lemma v1_origin v0 r :
  In r (v1 order_by_t v0) ->
  exists a, In a v0 /\ t1 r = t a /\ (t2 r = 0 \/ exists b, In b v0 /\ t2 r = t b).
Proof.
  unfold v1. rewrite in_flat_map. intros (e & _ & Hr).
  destruct (lead_rows_origin _ _ Hr) as (a & Ha & _ & Ht & H2).
  apply order_in, partition_in in Ha.
  exists a. repeat split; try tauto.
  destruct H2 as [H2|(b & Hb & H2)]; [now left|right].
  apply order_in, partition_in in Hb. exists b. tauto.
Qed.

(** In a partition ordered strictly and without a negative time, every
    candidate but the last passes [t1 < t2]. *)
Lemma lead_rows_pass p :
  Sorted (fun a b => t a <= t b) p ->
  NoDup (map t p) ->
  Forall (fun a => 0 <= t a) p ->
  List.length (filter (fun r => t1 r <? t2 r) (lead_rows p))
  = (List.length p - 1)%nat.
Proof.
  induction 1 as [|a rest Hs IH Hd]; intros Hnd Hpos; [reflexivity|].
  inversion Hnd as [|? ? Hnotin Hnd']; subst.
  inversion Hpos as [|? ? Ha Hpos']; subst.
  destruct rest as [|b rest'].
  - simpl. destruct (t a <? 0) eqn:E; [apply Z.ltb_lt in E; lia|reflexivity].
  - specialize (IH Hnd' Hpos').
    change (lead_rows (a :: b :: rest'))
      with (mkV1 (mmsi a) (x a) (y a) (t a) (x b) (y b) (t b) :: lead_rows (b :: rest')).
    cbn [filter t1 t2].
    inversion Hd as [|? ? Hab]; subst.
    assert (t a <> t b) by (intros E; apply Hnotin; left; auto).
    destruct (t a <? t b) eqn:E; [|apply Z.ltb_ge in E; lia].
    cbn [List.length]. rewrite IH. simpl. lia.
Qed.

End Window.

(** ** TrajectorySegmenter: v1 and v2 *)

Lemma wrap64_small z : - 2 ^ 63 <= z < 2 ^ 63 -> Sql.wrap64 z = z.
Proof.
  intros H. unfold Sql.wrap64. rewrite Z.mod_small; lia.
Qed.

Lemma epoch_range_bound t :
  Sql.epoch_range t -> - 9223372036855 <= t <= 9223372036854.
Proof.
  intros (micros & Hm & ->).
  change (2 ^ 63) with 9223372036854775808 in Hm.
  pose proof (Z.div_mod micros 1000000 ltac:(lia)).
  pose proof (Z.mod_pos_bound micros 1000000 ltac:(lia)).
  lia.
Qed.

Lemma epoch_range_seconds t :
  - 9000000000000 <= t <= 9000000000000 -> Sql.epoch_range t.
Proof.
  intros H. exists (t * 1000000). split.
  - change (2 ^ 63) with 9223372036854775808. lia.
  - symmetry. apply Z.div_mul. lia.
Qed.

Lemma lead_rows_cases p r :
  In r (lead_rows p) ->
  pairs_consecutive r p \/ (t2 r = 0 /\ exists a, In a p /\ t1 r = t a).
Proof.
  revert r. induction p as [|a rest IH]; intros r; simpl; [contradiction|].
  destruct rest as [|b rest'].
  - simpl. intros [<-|[]]. right. split; [reflexivity|]. exists a. auto.
  - change (lead (b :: rest')) with (x b, y b, t b).
    intros [<-|Hr].
    + left. exists [], a, b, rest'. auto.
    + destruct (IH r Hr) as [(bef & c & d & aft & Hp & Hrow)|(H0 & c & Hc & Ht)].
      * left. exists (a :: bef), c, d, aft. rewrite Hp. auto.
      * right. split; [assumption|]. exists c. split; [now right|assumption].
Qed.

(** X3. With no report before the epoch, every row of v2 pairs two reports
    that follow each other in the ordered partition of its entity. *)
Lemma v2_pairs_consecutive ord v0 :
  WindowOrder ord ->
  Forall (fun a => 0 <= t a) v0 ->
  Forall (fun r => pairs_consecutive (v2_row r)
                     (ord (partition_of (v1_mmsi (v2_row r)) v0)))
         (v2 ord v0).
Proof.
  intros Hord Hpos. apply Forall_forall. intros r Hr.
  unfold v2 in Hr. apply in_map_iff in Hr. destruct Hr as (c & <- & Hc).
  apply filter_In in Hc. destruct Hc as [Hc Hlt]. apply Z.ltb_lt in Hlt.
  cbn [v2_row enrich].
  unfold v1 in Hc. apply in_flat_map in Hc. destruct Hc as (e & _ & Hc).
  rewrite (partition_rows_mmsi ord Hord e v0 c Hc).
  destruct (lead_rows_cases _ _ Hc) as [H|(H0 & a & Ha & Ht)]; [assumption|].
  apply (order_in ord Hord), partition_in in Ha.
  rewrite Forall_forall in Hpos. specialize (Hpos a (proj1 Ha)). lia.
Qed.

(** C7. Every row of v2 has [t1 < t2]; a candidate of v1 with [t2 <= t1] is
    in no row of v2; and every row of v4 is computed from a row of v2, so
    the later views see only rows with [t1 < t2]. *)
Theorem v2_time_strictly_increases ord v0 :
  Forall (fun r => t1 (v2_row r) < t2 (v2_row r)) (v2 ord v0) /\
  Forall (fun c => t2 c <= t1 c -> ~ In c (map v2_row (v2 ord v0))) (v1 ord v0) /\
  Forall (fun r => exists s, In s (v2 ord v0) /\ r = speed (distance s) /\
                             t1 (v2_row s) < t2 (v2_row s))
         (v4 ord v0).
Proof.
  assert (H : forall r, In r (v2 ord v0) -> t1 (v2_row r) < t2 (v2_row r)).
  { intros r Hr. unfold v2 in Hr. apply in_map_iff in Hr.
    destruct Hr as (c & <- & Hc). apply filter_In in Hc.
    now apply Z.ltb_lt. }
  split; [|split]; apply Forall_forall.
  - exact H.
  - intros c _ Hle Hin. apply in_map_iff in Hin.
    destruct Hin as (r & <- & Hr). specialize (H r Hr). lia.
  - intros r Hr. unfold v4, v3 in Hr. rewrite map_map in Hr.
    apply in_map_iff in Hr. destruct Hr as (s & <- & Hs).
    exists s. auto.
Qed.

(** C2, as amended. When the reports of an entity have pairwise distinct
    timestamps, none of them negative, v2 holds exactly one row less for the
    entity than v0 holds reports of it. *)
Theorem micropaths_one_less_than_reports ord e v0 :
  WindowOrder ord ->
  NoDup (map t (partition_of e v0)) ->
  Forall (fun a => 0 <= t a) (partition_of e v0) ->
  List.length (micropaths_of e (v2 ord v0))
  = (List.length (partition_of e v0) - 1)%nat.
Proof.
  intros Hord Hnd Hpos.
  unfold micropaths_of, v2.
  rewrite filter_map_swap, length_map. cbn [v2_row enrich].
  rewrite filter_comm, (v1_of_entity ord Hord).
  pose proof (ord_perm _ Hord (partition_of e v0)) as Hperm.
  rewrite lead_rows_pass.
  - now rewrite (Permutation_length Hperm).
  - apply (ord_sorted _ Hord).
  - apply (Permutation_NoDup (l := map t (partition_of e v0))); [|assumption].
    apply Permutation_map. now symmetry.
  - apply (Permutation_Forall (x := partition_of e v0)); [|assumption].
    now symmetry.
Qed.

Lemma micropaths_one_less_than_reports_witness :
  List.length (micropaths_of "A"
                 (v2 sort_by_t [mkV0 "A" 20 0 1000; mkV0 "B" 1 1 5;
                                mkV0 "A" 0 0 0; mkV0 "A" 10 0 10]))
  = 2%nat.
Proof.
  apply (micropaths_one_less_than_reports sort_by_t "A"
           [mkV0 "A" 20 0 1000; mkV0 "B" 1 1 5; mkV0 "A" 0 0 0; mkV0 "A" 10 0 10]).
  - exact sort_by_t_order.
  - simpl. nodup_Z.
  - simpl. repeat constructor; simpl; lia.
Defined.

(** C2, as stated, fails: two reports of an entity with one timestamp give
    no row of v2, not one. *)
Lemma duplicate_timestamps_give_fewer_micropaths :
  List.length (partition_of "A" [mkV0 "A" 0 0 100; mkV0 "A" 3 4 100]) = 2%nat /\
  List.length (micropaths_of "A"
                 (v2 sort_by_t [mkV0 "A" 0 0 100; mkV0 "A" 3 4 100])) = 0%nat.
Proof. split; reflexivity. Qed.

(** C3, at a report before the epoch. The only report of an entity, at
    [t = -5], is paired with the defaults of [lead]: the row ends at
    [(0.0, 0.0)] and [t2 = 0], passes [t1 < t2], and passes the noise filter
    with [dd = 5], [dt = 5] and [mps = 1]. *)
Lemma lead_default_leaks_before_epoch :
  v2 sort_by_t [mkV0 "A" 3 4 (-5)]
  = [mkV2 (mkV1 "A" 3 4 (-5) 0 0 0) (-3) (-4) 5] /\
  v4 sort_by_t [mkV0 "A" 3 4 (-5)]
  = [mkV4 (mkV3 "A" 3 4 0 0 5 5) (Some 1%float)] /\
  df1 (v4 sort_by_t [mkV0 "A" 3 4 (-5)]) = [mkMicropath 3 4 0 0].
Proof. repeat split; vm_compute; reflexivity. Qed.

(** ** Sign symmetry of binary64 arithmetic

    Rounding to nearest even does not look at the sign, so negating the
    operands of a product or of a difference negates the result.  The one
    exception is a zero result, whose sign need not change; [mirror] allows
    it. *)

Lemma binary_round_aux_negb p e s m ex l :
  binary_round_aux p e (negb s) m ex l = SFopp (binary_round_aux p e s m ex l).
Proof.
  unfold binary_round_aux.
  destruct (shr_fexp p e m ex l) as [mrs e'].
  destruct (shr_fexp p e _ e' loc_Exact) as [mrs' e''].
  destruct (shr_m mrs'); simpl; trivial.
  destruct (e'' <=? e - p); reflexivity.
Qed.

Lemma binary_round_negb p e s m ex :
  binary_round p e (negb s) m ex = SFopp (binary_round p e s m ex).
Proof.
  unfold binary_round.
  destruct (shl_align m ex _) as [mz ez].
  apply binary_round_aux_negb.
Qed.

Lemma binary_normalize_opp p e m ez :
  mirror (binary_normalize p e m ez false) (binary_normalize p e (- m) ez false).
Proof.
  destruct m as [|q|q]; simpl.
  - right; split; reflexivity.
  - left. apply (binary_round_negb p e false).
  - left. rewrite (binary_round_negb p e false).
    destruct (binary_round p e false q ez) as [[]|[]| |[] ? ?]; reflexivity.
Qed.

Lemma cond_Zopp_negb s m : cond_Zopp (negb s) m = - cond_Zopp s m.
Proof. destruct s; simpl; lia. Qed.

Lemma SFsub_swap a b : mirror (SF64sub a b) (SF64sub b a).
Proof.
  unfold SF64sub.
  destruct a as [sa|sa| |sa ma ea], b as [sb|sb| |sb mb eb];
    try (left; destruct sa, sb; reflexivity);
    try (left; destruct sa; reflexivity);
    try (left; destruct sb; reflexivity);
    try (left; reflexivity).
  - right; destruct sa, sb; split; reflexivity.
  - cbn [SFsub].
    rewrite (Z.min_comm eb ea).
    set (A := cond_Zopp sa _). set (B := cond_Zopp sb _).
    replace (B - A) with (- (A - B)) by lia.
    apply binary_normalize_opp.
Qed.

Lemma SFsub_opp a b : mirror (SF64sub a b) (SF64sub (SFopp a) (SFopp b)).
Proof.
  unfold SF64sub.
  destruct a as [sa|sa| |sa ma ea], b as [sb|sb| |sb mb eb];
    try (left; destruct sa, sb; reflexivity);
    try (left; destruct sa; reflexivity);
    try (left; destruct sb; reflexivity);
    try (left; reflexivity).
  - right; destruct sa, sb; split; reflexivity.
  - cbn [SFsub SFopp].
    rewrite !cond_Zopp_negb.
    set (A := cond_Zopp sa _). set (B := cond_Zopp sb _).
    replace (- A - - B) with (- (A - B)) by lia.
    apply binary_normalize_opp.
Qed.

Lemma SFmul_opp_l u g : SF64mul (SFopp u) g = SFopp (SF64mul u g).
Proof.
  unfold SF64mul.
  destruct u as [su|su| |su mu eu], g as [sg|sg| |sg mg eg]; simpl; trivial;
    try (destruct su, sg; reflexivity).
  rewrite <- binary_round_aux_negb. now destruct su, sg.
Qed.

Lemma SFmul_opp_r u g : SF64mul g (SFopp u) = SFopp (SF64mul g u).
Proof.
  unfold SF64mul.
  destruct u as [su|su| |su mu eu], g as [sg|sg| |sg mg eg]; simpl; trivial;
    try (destruct su, sg; reflexivity).
  rewrite <- binary_round_aux_negb. now destruct su, sg.
Qed.

Lemma SFmul_mirror_l u u' g :
  mirror u u' -> mirror (SF64mul u g) (SF64mul u' g).
Proof.
  intros [->|[H1 H2]].
  - left. apply SFmul_opp_l.
  - zeros u u'.
    destruct g as [sg|sg| |sg mg eg]; simpl;
      solve [ left; reflexivity | right; split; reflexivity ].
Qed.

Lemma SFmul_mirror_r u u' g :
  mirror u u' -> mirror (SF64mul g u) (SF64mul g u').
Proof.
  intros [->|[H1 H2]].
  - left. apply SFmul_opp_r.
  - zeros u u'.
    destruct g as [sg|sg| |sg mg eg]; simpl;
      solve [ left; reflexivity | right; split; reflexivity ].
Qed.

Lemma SFsub_mirror a a' b b' :
  mirror a a' -> mirror b b' -> mirror (SF64sub a b) (SF64sub a' b').
Proof.
  intros [->|[Ha Ha']] [->|[Hb Hb']].
  - apply SFsub_opp.
  - zeros b b'.
    destruct a as [sa|sa| |sa ma ea]; simpl;
      solve [ left; reflexivity | right; destruct sa, s, s0; split; reflexivity ].
  - zeros a a'.
    destruct b as [sb|sb| |sb mb eb]; simpl;
      solve [ left; reflexivity | right; destruct s, s0, sb; split; reflexivity ].
  - zeros a a'. zeros b b'.
    right; destruct s, s0, s1, s2; split; reflexivity.
Qed.

Lemma mirror_sign c c' :
  mirror c c' ->
  SFltb c' (S754_zero false) = SFltb (S754_zero false) c /\
  SFltb (S754_zero false) c' = SFltb c (S754_zero false).
Proof.
  intros [->|[H H']].
  - destruct c as [[]|[]| |[] ? ?]; split; reflexivity.
  - zeros c c'. split; reflexivity.
Qed.

Lemma SFltb_one_side c :
  SFltb c (S754_zero false) = true -> SFltb (S754_zero false) c = false.
Proof.
  destruct c as [[]|[]| |[] ? ?]; cbv; intros H;
    solve [reflexivity | discriminate H].
Qed.

Lemma SFsub_self a : sf_null (SF64sub a a) = true.
Proof.
  unfold SF64sub.
  destruct a as [[]|[]| |s m e]; try reflexivity.
  cbn [SFsub]. rewrite Z.sub_diag. reflexivity.
Qed.

Lemma SFmul_null_r u g : sf_null g = true -> sf_null (SF64mul u g) = true.
Proof.
  destruct g as [sg| | |]; try discriminate; intros _;
    destruct u as [su|su| |su mu eu]; reflexivity.
Qed.



(** The same facts on the primitive floats. *)

Lemma ltb_zero_r c : (c <? 0)%float = SFltb (Prim2SF c) (S754_zero false).
Proof. rewrite ltb_spec. reflexivity. Qed.

Lemma ltb_zero_l c : (0 <? c)%float = SFltb (S754_zero false) (Prim2SF c).
Proof. rewrite ltb_spec. reflexivity. Qed.

Lemma sub_swap a b : mirror (Prim2SF (a - b)) (Prim2SF (b - a)).
Proof. rewrite !sub_spec. apply SFsub_swap. Qed.

Lemma cross_mirror_path px py px' py' gx gy :
  mirror (Prim2SF px) (Prim2SF px') ->
  mirror (Prim2SF py) (Prim2SF py') ->
  mirror (Prim2SF (cross px py gx gy)) (Prim2SF (cross px' py' gx gy)).
Proof.
  intros Hx Hy. unfold cross. rewrite !sub_spec, !mul_spec.
  apply SFsub_mirror; now apply SFmul_mirror_l.
Qed.

Lemma cross_mirror_gate px py gx gy gx' gy' :
  mirror (Prim2SF gx) (Prim2SF gx') ->
  mirror (Prim2SF gy) (Prim2SF gy') ->
  mirror (Prim2SF (cross px py gx gy)) (Prim2SF (cross px py gx' gy')).
Proof.
  intros Hx Hy. unfold cross. rewrite !sub_spec, !mul_spec.
  apply SFsub_mirror; now apply SFmul_mirror_r.
Qed.

(** When the cross product is not zero (and is a number), mirrored operands
    are classified the other way. *)
Lemma lr_rl_mirror k k' :
  mirror (Prim2SF k) (Prim2SF k') ->
  (k <? 0)%float = true \/ (0 <? k)%float = true ->
  (if (k' <? 0)%float then "RL"%string else "LR"%string)
  = opposite (if (k <? 0)%float then "RL"%string else "LR"%string).
Proof.
  intros Hm Hk. apply mirror_sign in Hm. destruct Hm as [Hneg Hpos].
  rewrite (ltb_zero_r k'), Hneg, <- ltb_zero_l.
  destruct Hk as [Hk|Hk].
  - rewrite Hk. rewrite ltb_zero_r in Hk. apply SFltb_one_side in Hk.
    rewrite <- ltb_zero_l in Hk. rewrite Hk. reflexivity.
  - rewrite Hk. destruct (k <? 0)%float eqn:E; [|reflexivity].
    rewrite ltb_zero_r in E. apply SFltb_one_side in E.
    rewrite <- ltb_zero_l in E. congruence.
Qed.


(** ** GateCrossingDetector: [func] *)

Lemma comprehension_In {A B : Type} (f : A -> Py B) l bs b :
  comprehension f l = Return bs -> In b bs ->
  exists a, In a l /\ f a = Return b.
Proof.
  revert bs. induction l as [|a l IH]; simpl; intros bs H Hb.
  - inversion H; subst. destruct Hb.
  - destruct (f a) as [b0|e] eqn:Ea; simpl in H; [|discriminate].
    destruct (comprehension f l) as [bs0|e]; simpl in H; [|discriminate].
    inversion H; subst. destruct Hb as [<-|Hb].
    + exists a. auto.
    + destruct (IH bs0 eq_refl Hb) as (a' & Ha' & Hf). exists a'. auto.
Qed.

Lemma for_yield_In {A B : Type} (f : A -> Py (list B)) l out c :
  for_yield f l = Return out -> In c out ->
  exists a ys, In a l /\ f a = Return ys /\ In c ys.
Proof.
  revert out. induction l as [|a l IH]; simpl; intros out H Hc.
  - inversion H; subst. destruct Hc.
  - destruct (f a) as [ys|e] eqn:Ea; simpl in H; [|discriminate].
    destruct (for_yield f l) as [zs|e]; simpl in H; [|discriminate].
    inversion H; subst. apply in_app_or in Hc. destruct Hc as [Hc|Hc].
    + exists a, ys. auto.
    + destruct (IH zs eq_refl Hc) as (a' & ys' & Ha' & Hf & Hin).
      exists a', ys'. auto.
Qed.

Lemma name_geom_Return g gate :
  name_geom g = Return gate ->
  exists head,
    hd_error (shape g) = Some head /\
    gate = (GateID g, shape g,
            (fst (last (shape g) head) - fst head)%float,
            (snd (last (shape g) head) - snd head)%float).
Proof.
  unfold name_geom. destruct (shape g) as [|head tl]; [discriminate|].
  intros H. inversion H. exists head. auto.
Qed.

Lemma visit_In intersection m gid geom gx gy ys c :
  visit intersection m (gid, geom, gx, gy) = Return ys -> In c ys ->
  intersection geom (path_of m) = Point (gate_x c) (gate_y c) /\
  gate_id c = gid /\
  travel_dir c = lr_rl (m_x2 m - m_x1 m) (m_y2 m - m_y1 m) gx gy.
Proof.
  unfold visit. destruct (intersection geom (path_of m)) as [|qx qy|];
    intros H Hc; inversion H; subst.
  - destruct Hc.
  - destruct Hc as [<-|[]]. auto.
Qed.

(** One gate and one micropath. *)
Lemma func_one intersection g m :
  func intersection [g] [m]
  = gate <- name_geom g ;; visit intersection m gate.
Proof.
  unfold func. simpl. destruct (name_geom g) as [gate|e]; simpl; [|reflexivity].
  destruct (visit intersection m gate) as [ys|e]; simpl; [|reflexivity].
  now rewrite !app_nil_r.
Qed.

Lemma last_rev_hd {A : Type} (l : list A) d : last (rev l) d = hd d l.
Proof. destruct l; simpl; [reflexivity|apply last_last]. Qed.

Lemma hd_rev_last {A : Type} (l : list A) d : hd d (rev l) = last l d.
Proof. rewrite <- (rev_involutive l) at 2. now rewrite last_rev_hd. Qed.

(** The vector of the gate drawn the other way mirrors the vector of the
    gate. *)
Lemma name_geom_reverse g gid geom gx gy :
  name_geom g = Return (gid, geom, gx, gy) ->
  exists gx' gy',
    name_geom (reverse g) = Return (gid, rev geom, gx', gy') /\
    mirror (Prim2SF gx) (Prim2SF gx') /\ mirror (Prim2SF gy) (Prim2SF gy').
Proof.
  unfold name_geom, reverse. cbn [shape GateID].
  destruct (shape g) as [|head tl] eqn:El; [discriminate|].
  intros H. inversion H; subst. clear H.
  destruct (rev (head :: tl)) as [|h' tl'] eqn:Er.
  - apply (f_equal (@List.length _)) in Er. rewrite length_rev in Er. discriminate.
  - assert (Hh : h' = last (head :: tl) head).
    { rewrite <- hd_rev_last, Er. reflexivity. }
    assert (Hl : last (h' :: tl') h' = head).
    { rewrite <- Er, last_rev_hd. reflexivity. }
    rewrite Hl, Hh.
    eexists _, _. split; [reflexivity|]. split; apply sub_swap.
Qed.

(** C1. Every row that [func] yields comes from a micropath of the partition
    and a gate of the broadcast whose intersection is the point of the row,
    and its direction is "RL" when the cross product [px*gy - py*gx] of the
    micropath vector and the gate vector (last point minus first) is below
    zero, and "LR" in every other case. *)
Theorem direction_is_sign_of_cross intersection bv partition out :
  func intersection bv partition = Return out ->
  Forall (fun c =>
            exists m g head,
              In m partition /\ In g bv /\ hd_error (shape g) = Some head /\
              gate_id c = GateID g /\
              intersection (shape g) (path_of m) = Point (gate_x c) (gate_y c) /\
              let px := (m_x2 m - m_x1 m)%float in
              let py := (m_y2 m - m_y1 m)%float in
              let gx := (fst (last (shape g) head) - fst head)%float in
              let gy := (snd (last (shape g) head) - snd head)%float in
              travel_dir c
              = if (px * gy - py * gx <? 0)%float then "RL"%string else "LR"%string)
         out.
Proof.
  intros H. apply Forall_forall. intros c Hc.
  unfold func in H.
  destruct (comprehension name_geom bv) as [gates|e] eqn:Eg; simpl in H;
    [|discriminate].
  destruct (for_yield_In _ _ _ _ H Hc) as (m & ys & Hm & Hys & Hc').
  destruct (for_yield_In _ _ _ _ Hys Hc') as (gate & zs & Hgate & Hzs & Hc'').
  destruct (comprehension_In _ _ _ _ Eg Hgate) as (g & Hg & Hname).
  destruct (name_geom_Return _ _ Hname) as (head & Hhead & ->).
  destruct (visit_In _ _ _ _ _ _ _ _ Hzs Hc'') as (Hpoint & Hid & Hdir).
  exists m, g, head. repeat split; assumption.
Qed.

Lemma direction_is_sign_of_cross_witness :
  Forall (fun c =>
            exists m g head,
              In m [mkMicropath 0 0 10 0; mkMicropath 10 0 0 0; mkMicropath 0 7 10 7] /\
              In g [mkGate 7 [(5, -5); (5, 5)]%float] /\
              hd_error (shape g) = Some head /\
              gate_id c = GateID g /\
              Planar.intersection (shape g) (path_of m)
              = Point (gate_x c) (gate_y c) /\
              let px := (m_x2 m - m_x1 m)%float in
              let py := (m_y2 m - m_y1 m)%float in
              let gx := (fst (last (shape g) head) - fst head)%float in
              let gy := (snd (last (shape g) head) - snd head)%float in
              travel_dir c
              = if (px * gy - py * gx <? 0)%float then "RL"%string else "LR"%string)
         [mkCrossing 5 0 7 "LR"; mkCrossing 5 0 7 "RL"].
Proof.
  apply (direction_is_sign_of_cross Planar.intersection
           [mkGate 7 [(5, -5); (5, 5)]%float]
           [mkMicropath 0 0 10 0; mkMicropath 10 0 0 0; mkMicropath 0 7 10 7]).
  vm_compute. reflexivity.
Defined.

(** C5, at a micropath that runs along a gate. The gate is the line from
    [(0,0)] to [(10,0)], the micropath goes from [(5,0)] to [(15,0)]: what
    they share is the stretch from [(5,0)] to [(10,0)], which is not empty
    and has no attribute [x], so [func] raises and yields no row. *)
Lemma overlap_raises_attribute_error :
  Planar.intersection [(0, 0); (10, 0)]%float (path_of (mkMicropath 5 0 15 0))
  = Other /\
  func Planar.intersection [mkGate 1 [(0, 0); (10, 0)]%float]
       [mkMicropath 5 0 15 0]
  = Raise AttributeError.
Proof. split; vm_compute; reflexivity. Qed.

(** For one gate and one micropath, [func] follows the intersection: no row
    when it is empty, one row when it is a point, an error otherwise. *)
Lemma func_follows_intersection intersection g m gate :
  name_geom g = Return gate ->
  func intersection [g] [m]
  = match intersection (shape g) (path_of m) with
    | Empty => Return []
    | Point qx qy =>
        Return [mkCrossing qx qy (GateID g)
                  (lr_rl (m_x2 m - m_x1 m) (m_y2 m - m_y1 m)
                         (snd (fst gate)) (snd gate))]
    | Other => Raise AttributeError
    end.
Proof.
  intros H. rewrite func_one, H. simpl.
  destruct (name_geom_Return _ _ H) as (head & _ & ->).
  reflexivity.
Qed.

(** C6, as amended. When the cross product of the micropath vector and the
    gate vector is below or above zero, the micropath travelled the other
    way is reported with the opposite direction at the gate, and so is the
    micropath at the gate drawn the other way. *)
Theorem direction_flips_off_zero_cross intersection g m gid geom gx gy c :
  name_geom g = Return (gid, geom, gx, gy) ->
  func intersection [g] [m] = Return [c] ->
  (cross (m_x2 m - m_x1 m) (m_y2 m - m_y1 m) gx gy <? 0)%float = true \/
  (0 <? cross (m_x2 m - m_x1 m) (m_y2 m - m_y1 m) gx gy)%float = true ->
  (forall c', func intersection [g] [swap m] = Return [c'] ->
              travel_dir c' = opposite (travel_dir c)) /\
  (forall c', func intersection [reverse g] [m] = Return [c'] ->
              travel_dir c' = opposite (travel_dir c)).
Proof.
  intros Hname Hc Hk.
  assert (Hdir : travel_dir c = lr_rl (m_x2 m - m_x1 m) (m_y2 m - m_y1 m) gx gy).
  { rewrite (func_follows_intersection _ _ _ _ Hname) in Hc.
    destruct (intersection (shape g) (path_of m)); inversion Hc. reflexivity. }
  rewrite Hdir. unfold lr_rl. split; intros c' Hc'.
  - rewrite (func_follows_intersection _ _ _ _ Hname) in Hc'.
    destruct (intersection (shape g) (path_of (swap m))); inversion Hc'.
    cbn [travel_dir snd fst swap m_x1 m_x2 m_y1 m_y2]. unfold lr_rl.
    apply lr_rl_mirror; [|exact Hk].
    apply cross_mirror_path; apply sub_swap.
  - destruct (name_geom_reverse _ _ _ _ _ Hname) as (gx' & gy' & Hrev & Hx & Hy).
    rewrite (func_follows_intersection _ _ _ _ Hrev) in Hc'.
    destruct (intersection (shape (reverse g)) (path_of m)); inversion Hc'.
    cbn [travel_dir snd fst]. unfold lr_rl.
    apply lr_rl_mirror; [|exact Hk].
    now apply cross_mirror_gate.
Qed.

Lemma direction_flips_off_zero_cross_witness :
  travel_dir (mkCrossing 5 0 7 "RL") = opposite (travel_dir (mkCrossing 5 0 7 "LR")).
Proof.
  refine (proj1 (direction_flips_off_zero_cross Planar.intersection
                   (mkGate 7 [(5, -5); (5, 5)]%float) (mkMicropath 0 0 10 0)
                   7 [(5, -5); (5, 5)]%float 0 10 (mkCrossing 5 0 7 "LR")
                   _ _ _) (mkCrossing 5 0 7 "RL") _).
  - vm_compute. reflexivity.
  - vm_compute. reflexivity.
  - right. vm_compute. reflexivity.
  - vm_compute. reflexivity.
Defined.

(** C6, as stated, fails where the cross product is zero: a micropath that
    leaves the end of a gate along the line of the gate is reported "LR",
    and so are the micropath travelled the other way and the micropath at
    the gate drawn the other way. *)
Lemma no_flip_on_zero_cross :
  func Planar.intersection [mkGate 1 [(0, 0); (10, 0)]%float]
       [mkMicropath 10 0 20 0]
  = Return [mkCrossing 10 0 1 "LR"] /\
  func Planar.intersection [mkGate 1 [(0, 0); (10, 0)]%float]
       [swap (mkMicropath 10 0 20 0)]
  = Return [mkCrossing 10 0 1 "LR"] /\
  func Planar.intersection [reverse (mkGate 1 [(0, 0); (10, 0)]%float)]
       [mkMicropath 10 0 20 0]
  = Return [mkCrossing 10 0 1 "LR"].
Proof. repeat split; vm_compute; reflexivity. Qed.

(** ** NoiseFilter *)

Lemma clean_iff r :
  clean r = true <->
  (1 <=? dd (v4_row r))%float = true /\
  (dd (v4_row r) <=? 1500)%float = true /\
  (exists s, mps r = Some s /\ (s <? 25)%float = true) /\
  v3_dt (v4_row r) < 130.
Proof.
  unfold clean, Sql.between.
  change (Sql.cast_double 1) with 1%float.
  change (Sql.cast_double 1500) with 1500%float.
  change (Sql.cast_double 25) with 25%float.
  rewrite !andb_true_iff, Z.ltb_lt.
  destruct (mps r) as [s|]; simpl; split.
  - intros [[[H1 H2] H3] H4]. repeat split; eauto.
  - intros (H1 & H2 & (s' & Hs & H3) & H4). inversion Hs; subst. auto.
  - intros [[_ H] _]. discriminate.
  - intros (_ & _ & (s' & Hs & _) & _). discriminate.
Qed.

(** C4. A row is in the output of the noise filter exactly when it is a row
    of the input with [dd] in [1, 1500], [mps < 25] and [dt < 130]; every
    such row is kept as often as it occurs, whatever is counted; and the
    micropaths of df1 are the coordinates of these rows. *)
Theorem noise_filter_is_the_clean_subset rows :
  (forall r, In r (v5 rows) <->
             In r rows /\
             (1 <=? dd (v4_row r))%float = true /\
             (dd (v4_row r) <=? 1500)%float = true /\
             (exists s, mps r = Some s /\ (s <? 25)%float = true) /\
             v3_dt (v4_row r) < 130) /\
  (forall P : V4 -> bool,
      List.length (filter P (v5 rows))
      = List.length (filter (fun r => P r && clean r) rows)) /\
  df1 rows = map select_path (v5 rows).
Proof.
  split; [|split].
  - intros r. unfold v5. rewrite filter_In, clean_iff. reflexivity.
  - intros P. unfold v5. f_equal.
    induction rows as [|r rows IH]; simpl; [reflexivity|].
    destruct (clean r); simpl; rewrite ?andb_true_r, ?andb_false_r.
    + destruct (P r); now rewrite IH.
    + exact IH.
  - reflexivity.
Qed.

(** ** CrossingAggregator: GateStats *)

Lemma key_eqb_eq a b : key_eqb a b = true <-> a = b.
Proof.
  unfold key_eqb. destruct a as [ia da], b as [ib db]; simpl.
  rewrite andb_true_iff, Z.eqb_eq, String.eqb_eq.
  split; [intros [-> ->]; reflexivity|intros H; inversion H; auto].
Qed.

Lemma count_key_occ k v5rows :
  count_key k v5rows = Z.of_nat (count_occ key_eq_dec (map key_of v5rows) k).
Proof.
  unfold count_key. f_equal.
  induction v5rows as [|c l IH]; simpl; [reflexivity|].
  destruct (key_eq_dec (key_of c) k) as [E|E].
  - apply key_eqb_eq in E. rewrite E. simpl. now rewrite IH.
  - destruct (key_eqb (key_of c) k) eqn:E'; [|exact IH].
    apply key_eqb_eq in E'. contradiction.
Qed.

Lemma group_by_keys v5rows :
  map stat_key (group_by v5rows) = nodup key_eq_dec (map key_of v5rows).
Proof.
  unfold group_by. rewrite map_map.
  rewrite <- (map_id (nodup key_eq_dec (map key_of v5rows))) at 2.
  apply map_ext. intros [i d]. reflexivity.
Qed.

Lemma insert_stat_perm s l : Permutation (insert_stat s l) (s :: l).
Proof.
  induction l as [|s' l IH]; simpl; [reflexivity|].
  destruct (key_leb (stat_key s) (stat_key s')); [reflexivity|].
  rewrite IH. apply perm_swap.
Qed.

Lemma order_by_perm l : Permutation (order_by l) l.
Proof.
  induction l as [|s l IH]; simpl; [reflexivity|].
  rewrite insert_stat_perm. now constructor.
Qed.

Lemma key_leb_total a b : key_leb a b = false -> key_leb b a = true.
Proof.
  unfold key_leb. intros H. apply orb_false_iff in H. destruct H as [H1 H2].
  apply Z.ltb_ge in H1.
  destruct (fst b <? fst a) eqn:E; [reflexivity|]. apply Z.ltb_ge in E.
  assert (Heq : fst a = fst b) by lia.
  rewrite Heq, Z.eqb_refl in H2 |- *. simpl in *.
  destruct (String.leb_total (snd a) (snd b)); congruence.
Qed.

Lemma insert_stat_sorted s l :
  Sorted (fun a b => key_leb (stat_key a) (stat_key b) = true) l ->
  Sorted (fun a b => key_leb (stat_key a) (stat_key b) = true) (insert_stat s l).
Proof.
  induction 1 as [|s' l Hs IH Hd]; simpl.
  - repeat constructor.
  - destruct (key_leb (stat_key s) (stat_key s')) eqn:E.
    + repeat constructor; assumption.
    + apply key_leb_total in E. constructor; [assumption|].
      destruct Hd as [|s'' l' Hr]; simpl.
      * now constructor.
      * destruct (key_leb (stat_key s) (stat_key s'')); now constructor.
Qed.

Lemma order_by_sorted l :
  Sorted (fun a b => key_leb (stat_key a) (stat_key b) = true) (order_by l).
Proof.
  induction l as [|s l IH]; simpl; [constructor|].
  now apply insert_stat_sorted.
Qed.

Lemma key_leb_strict a b : key_leb a b = true -> a <> b -> key_lt a b.
Proof.
  unfold key_leb, key_lt. destruct a as [ia da], b as [ib db]; simpl.
  intros H Hne. apply orb_true_iff in H. destruct H as [H|H].
  - left. now apply Z.ltb_lt.
  - apply andb_true_iff in H. destruct H as [Hi Hd]. apply Z.eqb_eq in Hi.
    right. split; [assumption|]. subst ib.
    unfold String.leb in Hd. unfold String.ltb.
    destruct (String.compare da db) eqn:E; try reflexivity; try discriminate.
    apply String.compare_eq_iff in E. subst. contradiction.
Qed.

Lemma sorted_strict l :
  Sorted (fun a b => key_leb (stat_key a) (stat_key b) = true) l ->
  NoDup (map stat_key l) ->
  Sorted key_lt (map stat_key l).
Proof.
  induction 1 as [|s l Hs IH Hd]; simpl; intros Hnd; [constructor|].
  inversion Hnd as [|? ? Hout Hnd']; subst.
  constructor; [auto|].
  destruct Hd as [|s' l' Hr]; simpl; constructor.
  apply key_leb_strict; [assumption|].
  intros E. apply Hout. left. now symmetry.
Qed.

Lemma total_perm l l' : Permutation l l' -> total l = total l'.
Proof.
  unfold total. induction 1; simpl; lia.
Qed.

Lemma total_indicator_out (a : Key) ks :
  ~ In a ks ->
  total (map (fun k => if key_eq_dec a k then 1 else 0) ks) = 0.
Proof.
  unfold total. induction ks as [|k ks IH]; simpl; intros H; [reflexivity|].
  destruct (key_eq_dec a k) as [->|_]; [exfalso; apply H; now left|].
  rewrite IH; [reflexivity|]. intros Hin. apply H. now right.
Qed.

Lemma total_indicator_in (a : Key) ks :
  NoDup ks -> In a ks ->
  total (map (fun k => if key_eq_dec a k then 1 else 0) ks) = 1.
Proof.
  induction 1 as [|k ks Hk Hnd IH]; intros Hin; [destruct Hin|].
  change (total (map ?f (k :: ks))) with (f k + total (map f ks)).
  cbv beta. destruct (key_eq_dec a k) as [->|Hne].
  - rewrite total_indicator_out by assumption. reflexivity.
  - destruct Hin as [E|Hin]; [congruence|]. now rewrite IH.
Qed.

Lemma total_add {A : Type} (f g : A -> Z) l :
  total (map (fun a => f a + g a) l) = total (map f l) + total (map g l).
Proof.
  unfold total. induction l as [|a l IH]; simpl; lia.
Qed.

(** The groups of the distinct keys share out the rows. *)
Lemma total_counts (l ks : list Key) :
  NoDup ks -> incl l ks ->
  total (map (fun k => Z.of_nat (count_occ key_eq_dec l k)) ks)
  = Z.of_nat (List.length l).
Proof.
  intros Hnd. induction l as [|a l IH]; intros Hincl.
  - simpl. unfold total. induction ks as [|k ks IHk]; simpl; [reflexivity|].
    inversion Hnd; subst. rewrite IHk; auto. intros ? [].
  - rewrite (map_ext _ (fun k => (if key_eq_dec a k then 1 else 0)
                                 + Z.of_nat (count_occ key_eq_dec l k))).
    + rewrite total_add, total_indicator_in, IH.
      * cbn [List.length]. lia.
      * intros k Hk. apply Hincl. now right.
      * assumption.
      * apply Hincl. now left.
    + intros k. simpl. destruct (key_eq_dec a k); lia.
Qed.

(** C9. GateStats holds one row for each key [(gate_id, travel_dir)] that
    occurs in v5 and none for another key; the [cnt] of a row is the number
    of rows of v5 with its key; the rows ascend by [gate_id], then by
    [travel_dir]; and the [cnt] column adds up to the number of rows of
    v5. *)
Theorem gate_stats_count_each_key v5rows :
  NoDup (map stat_key (gate_stats v5rows)) /\
  (forall k, In k (map stat_key (gate_stats v5rows)) <-> In k (map key_of v5rows)) /\
  Forall (fun s => cnt s
                   = Z.of_nat (count_occ key_eq_dec (map key_of v5rows) (stat_key s)))
         (gate_stats v5rows) /\
  Sorted key_lt (map stat_key (gate_stats v5rows)) /\
  total (map cnt (gate_stats v5rows)) = Z.of_nat (List.length v5rows).
Proof.
  pose proof (order_by_perm (group_by v5rows)) as Hperm.
  fold (gate_stats v5rows) in Hperm.
  assert (Hkeys : Permutation (map stat_key (gate_stats v5rows))
                              (nodup key_eq_dec (map key_of v5rows))).
  { rewrite <- group_by_keys. now apply Permutation_map. }
  assert (Hnd : NoDup (map stat_key (gate_stats v5rows))).
  { apply (Permutation_NoDup (Permutation_sym Hkeys)), NoDup_nodup. }
  assert (Hcnt : forall s, In s (group_by v5rows) ->
                           cnt s = Z.of_nat (count_occ key_eq_dec (map key_of v5rows)
                                               (stat_key s))).
  { intros s Hs. unfold group_by in Hs. apply in_map_iff in Hs.
    destruct Hs as (k & <- & _). destruct k as [i d].
    cbn [cnt stat_key stat_gate_id stat_travel_dir fst snd].
    apply count_key_occ. }
  split; [exact Hnd|]. split; [|split; [|split]].
  - intros k. rewrite <- (nodup_In key_eq_dec (map key_of v5rows)).
    split; apply Permutation_in; [|symmetry]; exact Hkeys.
  - apply Forall_forall. intros s Hs. apply Hcnt.
    now apply (Permutation_in _ Hperm).
  - apply sorted_strict; [apply order_by_sorted|exact Hnd].
  - rewrite (total_perm _ _ (Permutation_map cnt Hperm)).
    rewrite (map_ext_in cnt
               (fun s => Z.of_nat (count_occ key_eq_dec (map key_of v5rows)
                                     (stat_key s))) _ Hcnt).
    rewrite <- (map_map stat_key
                  (fun k => Z.of_nat (count_occ key_eq_dec (map key_of v5rows) k))).
    rewrite group_by_keys, total_counts, length_map.
    + reflexivity.
    + apply NoDup_nodup.
    + intros k Hk. now apply nodup_In.
Qed.

(** ** The scenarios of the specification *)

(** Entity "A" reports [(0,0)] at 0, [(10,0)] at 10 and [(20,0)] at 1000:
    two rows in v4, of which the noise filter keeps the first ([dt = 10],
    [dd = 10], [mps = 1]) and drops the second ([dt = 990]). *)
Example scenario_one_surviving_micropath :
  v4 sort_by_t [mkV0 "A" 20 0 1000; mkV0 "A" 0 0 0; mkV0 "A" 10 0 10]
  = [mkV4 (mkV3 "A" 0 0 10 0 10 10) (Some 1%float);
     mkV4 (mkV3 "A" 10 0 20 0 10 990) (Sql.div 10 990)] /\
  v5 (v4 sort_by_t [mkV0 "A" 20 0 1000; mkV0 "A" 0 0 0; mkV0 "A" 10 0 10])
  = [mkV4 (mkV3 "A" 0 0 10 0 10 10) (Some 1%float)] /\
  df1 (v4 sort_by_t [mkV0 "A" 20 0 1000; mkV0 "A" 0 0 0; mkV0 "A" 10 0 10])
  = [mkMicropath 0 0 10 0].
Proof. repeat split; vm_compute; reflexivity. Qed.

(** The gate from [(5,-5)] to [(5,5)]: the micropath from [(0,0)] to
    [(10,0)] crosses it at [(5,0)] "LR", the same micropath travelled the
    other way "RL", and a micropath that stays left of it gives no row. *)
Example scenario_crossings_at_one_gate :
  func Planar.intersection [mkGate 7 [(5, -5); (5, 5)]%float]
       [mkMicropath 0 0 10 0; mkMicropath 10 0 0 0; mkMicropath 0 0 4 0]
  = Return [mkCrossing 5 0 7 "LR"; mkCrossing 5 0 7 "RL"] /\
  gate_stats [mkCrossing 5 0 7 "LR"; mkCrossing 5 0 7 "RL"]
  = [mkStat 7 "LR" 1; mkStat 7 "RL" 1].
Proof. split; vm_compute; reflexivity. Qed.

(** * Further properties of the notebooks *)

(** ** Groups of a column *)

Section Groups.

Variable K : Type.
Variable dec : forall a b : K, {a = b} + {a <> b}.

Lemma indicator_out (a : K) ks :
  ~ In a ks ->
  list_sum (map (fun k => if dec a k then 1%nat else 0%nat) ks) = 0%nat.
Proof.
  induction ks as [|k ks IH]; intros H; [reflexivity|].
  cbn [map list_sum fold_right].
  destruct (dec a k) as [->|_]; [exfalso; apply H; now left|].
  change (fold_right Nat.add 0%nat ?l) with (list_sum l).
  rewrite IH; [reflexivity|]. intros Hin. apply H. now right.
Qed.

Lemma indicator_in (a : K) ks :
  NoDup ks -> In a ks ->
  list_sum (map (fun k => if dec a k then 1%nat else 0%nat) ks) = 1%nat.
Proof.
  induction 1 as [|k ks Hk Hnd IH]; intros Hin; [destruct Hin|].
  cbn [map list_sum fold_right].
  change (fold_right Nat.add 0%nat ?l) with (list_sum l).
  destruct (dec a k) as [->|Hne].
  - now rewrite indicator_out.
  - destruct Hin as [E|Hin]; [congruence|]. now rewrite IH.
Qed.

Lemma list_sum_add {A : Type} (f g : A -> nat) l :
  list_sum (map (fun a => (f a + g a)%nat) l)
  = (list_sum (map f l) + list_sum (map g l))%nat.
Proof.
  induction l as [|a l IH]; [reflexivity|].
  cbn [map list_sum fold_right].
  change (fold_right Nat.add 0%nat ?l) with (list_sum l).
  rewrite IH. lia.
Qed.

(** The groups of the distinct values of a column share out its rows. *)
Lemma groups_share_out (l : list K) :
  list_sum (map (count_occ dec l) (nodup dec l)) = List.length l.
Proof.
  assert (H : forall ks, NoDup ks -> incl l ks ->
                         list_sum (map (count_occ dec l) ks) = List.length l).
  { intros ks Hnd. induction l as [|a l IH]; intros Hincl.
    - clear Hincl. induction ks as [|k ks IHk]; [reflexivity|].
      inversion Hnd; subst. cbn [map list_sum fold_right count_occ].
      apply IHk. assumption.
    - rewrite (map_ext _ (fun k => ((if dec a k then 1 else 0)
                                    + count_occ dec l k)%nat)).
      + rewrite list_sum_add, indicator_in, IH.
        * reflexivity.
        * intros k Hk. apply Hincl. now right.
        * assumption.
        * apply Hincl. now left.
      + intros k. cbn [count_occ]. destruct (dec a k); reflexivity. }
  apply H; [apply NoDup_nodup|].
  intros k Hk. now apply nodup_In.
Qed.

Lemma nodup_length_perm (l l' : list K) :
  Permutation l l' -> List.length (nodup dec l) = List.length (nodup dec l').
Proof.
  intros H. apply Permutation_length, NoDup_Permutation; try apply NoDup_nodup.
  intros k. rewrite !nodup_In. split; apply Permutation_in; [|symmetry]; exact H.
Qed.

End Groups.

(** ** The window, again *)

Lemma partition_length e v0 :
  List.length (partition_of e v0) = count_occ string_dec (map mmsi v0) e.
Proof.
  unfold partition_of. induction v0 as [|a v0 IH]; [reflexivity|].
  cbn [filter map count_occ].
  destruct (string_dec (mmsi a) e) as [E|E].
  - apply String.eqb_eq in E. rewrite E. cbn [List.length]. now rewrite IH.
  - apply String.eqb_neq in E. now rewrite E.
Qed.

Lemma lead_rows_count p : List.length (lead_rows p) = List.length p.
Proof.
  induction p as [|a rest IH]; [reflexivity|].
  cbn [lead_rows]. destruct (lead rest) as [[lx ly] lt].
  cbn [List.length]. now rewrite IH.
Qed.

(** X1. The window adds a leading record to every report and drops none:
    v1 has as many rows as v0. *)
Theorem v1_keeps_every_report ord v0 :
  WindowOrder ord ->
  List.length (v1 ord v0) = List.length v0.
Proof.
  intros Hord. unfold v1, entities.
  rewrite flat_map_concat_map, length_concat, map_map.
  rewrite (map_ext _ (count_occ string_dec (map mmsi v0))).
  - rewrite groups_share_out. apply length_map.
  - intros e. rewrite lead_rows_count.
    rewrite (Permutation_length (ord_perm _ Hord _)).
    apply partition_length.
Qed.

Lemma v1_keeps_every_report_witness :
  List.length (v1 sort_by_t [mkV0 "A" 20 0 1000; mkV0 "B" 1 1 5;
                             mkV0 "A" 0 0 0; mkV0 "A" 10 0 10])
  = 4%nat.
Proof.
  apply (v1_keeps_every_report sort_by_t
           [mkV0 "A" 20 0 1000; mkV0 "B" 1 1 5; mkV0 "A" 0 0 0; mkV0 "A" 10 0 10]).
  exact sort_by_t_order.
Defined.

Lemma sorted_head_least p a :
  Sorted (fun a b => t a <= t b) (a :: p) -> Forall (fun b => t a <= t b) p.
Proof.
  intros H. apply Sorted_StronglySorted in H.
  - now inversion H.
  - intros u v w Huv Hvw. lia.
Qed.

(** In an ordered partition without a negative time, the candidates that
    pass [t1 < t2] are as many as the changes of timestamp. *)
Lemma lead_rows_pass_distinct p :
  Sorted (fun a b => t a <= t b) p ->
  Forall (fun a => 0 <= t a) p ->
  List.length (filter (fun r => t1 r <? t2 r) (lead_rows p))
  = (List.length (nodup Z.eq_dec (map t p)) - 1)%nat.
Proof.
  induction p as [|a rest IH]; intros Hs Hpos; [reflexivity|].
  inversion Hpos as [|? ? Ha Hpos']; subst.
  pose proof (sorted_head_least _ _ Hs) as Hleast.
  inversion Hs as [|? ? Hs' Hd]; subst.
  destruct rest as [|b rest'].
  - simpl. destruct (t a <? 0) eqn:E; [apply Z.ltb_lt in E; lia|reflexivity].
  - specialize (IH Hs' Hpos').
    change (lead_rows (a :: b :: rest'))
      with (mkV1 (mmsi a) (x a) (y a) (t a) (x b) (y b) (t b) :: lead_rows (b :: rest')).
    cbn [filter t1 t2].
    change (map t (a :: b :: rest')) with (t a :: map t (b :: rest')).
    cbn [nodup].
    assert (Hone : (1 <= List.length (nodup Z.eq_dec (map t (b :: rest'))))%nat).
    { destruct (nodup Z.eq_dec (map t (b :: rest'))) as [|u l] eqn:E.
      - assert (Hin : In (t b) (nodup Z.eq_dec (map t (b :: rest'))))
          by (apply nodup_In; now left).
        rewrite E in Hin. destruct Hin.
      - simpl. lia. }
    inversion Hd as [|? ? Hab]; subst.
    destruct (t a <? t b) eqn:E.
    + apply Z.ltb_lt in E.
      destruct (in_dec Z.eq_dec (t a) (map t (b :: rest'))) as [Hin|_].
      * apply in_map_iff in Hin. destruct Hin as (c & Hc & Hin).
        rewrite Forall_forall in Hleast. specialize (Hleast c Hin).
        assert (t b <= t c).
        { destruct Hin as [<-|Hin]; [lia|].
          pose proof (sorted_head_least _ _ Hs') as Hb.
          rewrite Forall_forall in Hb. now apply Hb. }
        lia.
      * cbn [List.length]. rewrite IH. lia.
    + apply Z.ltb_ge in E. assert (Heq : t a = t b) by lia.
      destruct (in_dec Z.eq_dec (t a) (map t (b :: rest'))) as [_|Hout].
      * exact IH.
      * exfalso. apply Hout. left. now symmetry.
Qed.

(** X2. With no negative timestamp among the reports of an entity, v2 holds
    for it one row less than its reports have distinct timestamps: a row for
    every change of timestamp in the ordered partition, however the order
    breaks the ties. *)
Theorem micropaths_count_distinct_timestamps ord e v0 :
  WindowOrder ord ->
  Forall (fun a => 0 <= t a) (partition_of e v0) ->
  List.length (micropaths_of e (v2 ord v0))
  = (List.length (nodup Z.eq_dec (map t (partition_of e v0))) - 1)%nat.
Proof.
  intros Hord Hpos.
  unfold micropaths_of, v2.
  rewrite filter_map_swap, length_map. cbn [v2_row enrich].
  rewrite filter_comm, (v1_of_entity ord Hord).
  pose proof (ord_perm _ Hord (partition_of e v0)) as Hperm.
  rewrite lead_rows_pass_distinct.
  - f_equal. apply nodup_length_perm. now apply Permutation_map.
  - apply (ord_sorted _ Hord).
  - apply (Permutation_Forall (x := partition_of e v0)); [|assumption].
    now symmetry.
Qed.

Lemma micropaths_count_distinct_timestamps_witness :
  List.length (micropaths_of "A"
                 (v2 sort_by_t [mkV0 "A" 0 0 100; mkV0 "A" 3 4 100;
                                mkV0 "A" 6 8 101; mkV0 "B" 0 0 7]))
  = 1%nat.
Proof.
  apply (micropaths_count_distinct_timestamps sort_by_t "A"
           [mkV0 "A" 0 0 100; mkV0 "A" 3 4 100; mkV0 "A" 6 8 101; mkV0 "B" 0 0 7]).
  - exact sort_by_t_order.
  - simpl. repeat constructor; simpl; lia.
Defined.

Lemma v2_pairs_consecutive_witness :
  Forall (fun r => pairs_consecutive (v2_row r)
                     (sort_by_t (partition_of (v1_mmsi (v2_row r))
                                   [mkV0 "A" 10 0 10; mkV0 "B" 1 1 5;
                                    mkV0 "A" 0 0 0])))
         (v2 sort_by_t [mkV0 "A" 10 0 10; mkV0 "B" 1 1 5; mkV0 "A" 0 0 0]).
Proof.
  apply (v2_pairs_consecutive sort_by_t
           [mkV0 "A" 10 0 10; mkV0 "B" 1 1 5; mkV0 "A" 0 0 0]).
  - exact sort_by_t_order.
  - repeat constructor; simpl; lia.
Defined.

(** ** Distance and the noise filter, again *)

Lemma binary_round_aux_not_below_zero p e m ex l :
  SFltb (binary_round_aux p e false m ex l) (S754_zero false) = false.
Proof.
  unfold binary_round_aux.
  destruct (shr_fexp p e m ex l) as [mrs e'].
  destruct (shr_fexp p e _ e' loc_Exact) as [mrs' e''].
  destruct (shr_m mrs'); try reflexivity.
  destruct (e'' <=? e - p); reflexivity.
Qed.

Lemma SFsqrt_not_below_zero u :
  SFltb (SF64sqrt u) (S754_zero false) = false.
Proof.
  unfold SF64sqrt.
  destruct u as [[]|[]| |[] m e]; try reflexivity.
  cbn [SFsqrt].
  destruct (SFsqrt_core_binary prec emax (Z.pos m) e) as [[mz ez] lz].
  apply binary_round_aux_not_below_zero.
Qed.

(** X4. The distance of a micropath is never below zero: [dd] is zero, a
    positive number, infinite or no number, whatever the coordinates. *)
Theorem distance_is_not_negative ord v0 :
  Forall (fun r => (dd r <? 0)%float = false) (v3 ord v0) /\
  Forall (fun r => (dd (v4_row r) <? 0)%float = false) (v4 ord v0).
Proof.
  assert (H : forall r, (dd (distance r) <? 0)%float = false).
  { intros r. cbn [distance dd].
    rewrite ltb_zero_r, sqrt_spec. apply SFsqrt_not_below_zero. }
  split; apply Forall_forall; intros r Hr.
  - unfold v3 in Hr. apply in_map_iff in Hr. destruct Hr as (s & <- & _).
    apply H.
  - unfold v4, v3 in Hr. rewrite map_map in Hr.
    apply in_map_iff in Hr. destruct Hr as (s & <- & _).
    apply H.
Qed.

(** For values of [unix_timestamp], [dt] is the difference of the two
    timestamps and at least 1 in every row of v2. *)
Lemma v2_dt_exact ord v0 s :
  WindowOrder ord ->
  Forall (fun a => Sql.epoch_range (t a)) v0 ->
  In s (v2 ord v0) ->
  dt s = t2 (v2_row s) - t1 (v2_row s) /\ 1 <= dt s.
Proof.
  intros Hord Hrange Hs. unfold v2 in Hs. apply in_map_iff in Hs.
  destruct Hs as (c & <- & Hc). apply filter_In in Hc.
  destruct Hc as [Hc Hlt]. apply Z.ltb_lt in Hlt.
  destruct (v1_origin ord Hord v0 c Hc) as (a & Ha & Ht1 & Ht2).
  rewrite Forall_forall in Hrange.
  assert (R1 : - 9223372036855 <= t1 c <= 9223372036854).
  { rewrite Ht1. auto using epoch_range_bound. }
  assert (R2 : - 9223372036855 <= t2 c <= 9223372036854).
  { destruct Ht2 as [->|(b & Hb & ->)]; [lia|auto using epoch_range_bound]. }
  cbn [v2_row enrich dt]. unfold Sql.long_sub.
  rewrite wrap64_small; [lia|].
  change (2 ^ 63) with 9223372036854775808. lia.
Qed.

(** X5. For values of [unix_timestamp], the two reports of a micropath that
    the noise filter keeps are between 1 and 129 seconds apart. *)
Theorem clean_micropaths_span_1_to_129_seconds ord v0 :
  WindowOrder ord ->
  Forall (fun a => Sql.epoch_range (t a)) v0 ->
  Forall (fun r => exists s, In s (v2 ord v0) /\ r = speed (distance s) /\
                             1 <= t2 (v2_row s) - t1 (v2_row s) <= 129)
         (v5 (v4 ord v0)).
Proof.
  intros Hord Hrange. apply Forall_forall. intros r Hr.
  unfold v5 in Hr. apply filter_In in Hr. destruct Hr as [Hr Hclean].
  apply clean_iff in Hclean. destruct Hclean as (_ & _ & _ & Hdt).
  unfold v4, v3 in Hr. rewrite map_map in Hr.
  apply in_map_iff in Hr. destruct Hr as (s & <- & Hs).
  exists s. split; [assumption|]. split; [reflexivity|].
  destruct (v2_dt_exact ord v0 s Hord Hrange Hs) as [Hexact Hone].
  cbn [speed distance v4_row v3_dt] in Hdt. lia.
Qed.

Lemma clean_micropaths_span_1_to_129_seconds_witness :
  Forall (fun r => exists s,
            In s (v2 sort_by_t [mkV0 "A" 20 0 1000; mkV0 "A" 0 0 0;
                                mkV0 "A" 10 0 10]) /\
            r = speed (distance s) /\
            1 <= t2 (v2_row s) - t1 (v2_row s) <= 129)
         (v5 (v4 sort_by_t [mkV0 "A" 20 0 1000; mkV0 "A" 0 0 0;
                            mkV0 "A" 10 0 10])).
Proof.
  apply (clean_micropaths_span_1_to_129_seconds sort_by_t
           [mkV0 "A" 20 0 1000; mkV0 "A" 0 0 0; mkV0 "A" 10 0 10]).
  - exact sort_by_t_order.
  - repeat constructor; apply epoch_range_seconds; simpl; lia.
Defined.

(** X6. The noise filter keeps what it has kept: filtering a filtered view
    again changes nothing, and the micropaths of a view filtered before are
    the same. *)
Theorem noise_filter_idempotent rows :
  v5 (v5 rows) = v5 rows /\ df1 (v5 rows) = df1 rows.
Proof.
  assert (H : v5 (v5 rows) = v5 rows).
  { unfold v5. apply filter_all. intros r Hr. now apply filter_In in Hr. }
  split; [exact H|]. unfold df1. fold (v5 rows) (v5 (v5 rows)). now rewrite H.
Qed.

Lemma SFadd_null a b :
  sf_null a = true -> sf_null b = true -> sf_null (SF64add a b) = true.
Proof.
  destruct a as [sa| | |]; try discriminate; intros _;
    destruct b as [sb| | |]; try discriminate; intros _;
    try reflexivity.
  destruct sa, sb; reflexivity.
Qed.

Lemma SFsqrt_null a : sf_null a = true -> sf_null (SF64sqrt a) = true.
Proof. destruct a as [sa| | |]; try discriminate; reflexivity. Qed.

Lemma one_leb_null c : sf_null (Prim2SF c) = true -> (1 <=? c)%float = false.
Proof.
  rewrite leb_spec. destruct (Prim2SF c) as [sc| | |]; try discriminate;
    reflexivity.
Qed.

(** X7. A candidate that does not move is never a clean micropath: when the
    two reports have the same coordinates, [dd] is zero (or no number) and
    the noise filter drops the row. *)
Theorem stationary_candidate_is_dropped (c : V1) :
  x1 c = x2 c -> y1 c = y2 c ->
  clean (speed (distance (enrich c))) = false.
Proof.
  intros Hx Hy. unfold clean, Sql.between.
  cbn [speed distance enrich v4_row dd v2_row dx dy].
  rewrite Hx, Hy.
  change (Sql.cast_double 1) with 1%float.
  rewrite one_leb_null; [reflexivity|].
  rewrite sqrt_spec, add_spec, !mul_spec, !sub_spec.
  apply SFsqrt_null, SFadd_null; apply SFmul_null_r; apply SFsub_self.
Qed.

Lemma stationary_candidate_is_dropped_witness :
  clean (speed (distance (enrich (mkV1 "A" 3 4 10 3 4 20)))) = false.
Proof.
  apply (stationary_candidate_is_dropped (mkV1 "A" 3 4 10 3 4 20));
    reflexivity.
Defined.

(** ** [func] and the partitions *)

Lemma for_yield_app {A B : Type} (f : A -> Py (list B)) l l' :
  for_yield f (l ++ l')
  = ys <- for_yield f l ;; zs <- for_yield f l' ;; Return (ys ++ zs).
Proof.
  induction l as [|a l IH]; simpl.
  - destruct (for_yield f l'); reflexivity.
  - destruct (f a) as [ys|e]; simpl; [|reflexivity].
    rewrite IH. destruct (for_yield f l) as [zs|e]; simpl; [|reflexivity].
    destruct (for_yield f l') as [ws|e]; simpl; [|reflexivity].
    now rewrite app_assoc.
Qed.

Lemma for_yield_concat {A B : Type} (f : A -> Py (list B)) ls :
  for_yield f (List.concat ls) = for_yield (for_yield f) ls.
Proof.
  induction ls as [|l ls IH]; [reflexivity|].
  cbn [List.concat for_yield]. rewrite for_yield_app, IH. reflexivity.
Qed.

Lemma for_yield_raise {A B : Type} (e : PyError) (l : list A) :
  l <> [] -> for_yield (fun _ => @Raise (list B) e) l = Raise e.
Proof. destruct l; [congruence|reflexivity]. Qed.

(** X8. The rows of the join do not depend on how the micropaths are split
    into partitions: running [func] on each partition of an RDD with at
    least one partition gives what [func] gives on all the micropaths at
    once, rows and errors alike, and so does df2, which raises ValueError
    when no micropath crosses a gate. *)
Theorem join_is_independent_of_partitioning intersection bv rdd :
  rdd <> [] ->
  mapPartitions (func intersection bv) rdd
  = func intersection bv (List.concat rdd) /\
  df2 intersection bv rdd = toDF (func intersection bv (List.concat rdd)) /\
  (func intersection bv (List.concat rdd) = Return [] ->
   df2 intersection bv rdd = Raise ValueError).
Proof.
  intros Hne.
  assert (E : mapPartitions (func intersection bv) rdd
              = func intersection bv (List.concat rdd)).
  { unfold mapPartitions, func.
    destruct (comprehension name_geom bv) as [gates|e]; cbn [bind].
    - symmetry. apply for_yield_concat.
    - now apply for_yield_raise. }
  unfold df2. rewrite E. split; [reflexivity|]. split; [reflexivity|].
  intros ->. reflexivity.
Qed.

Lemma join_is_independent_of_partitioning_witness :
  df2 Planar.intersection [mkGate 7 [(5, -5); (5, 5)]%float]
      [[mkMicropath 0 0 10 0]; []; [mkMicropath 10 0 0 0; mkMicropath 0 0 4 0]]
  = toDF (func Planar.intersection [mkGate 7 [(5, -5); (5, 5)]%float]
            [mkMicropath 0 0 10 0; mkMicropath 10 0 0 0; mkMicropath 0 0 4 0]).
Proof.
  apply (join_is_independent_of_partitioning Planar.intersection
           [mkGate 7 [(5, -5); (5, 5)]%float]
           [[mkMicropath 0 0 10 0]; [];
            [mkMicropath 10 0 0 0; mkMicropath 0 0 4 0]]).
  discriminate.
Defined.

(** A micropath that stops short of the only gate: the join has no row and
    [toDF] raises. *)
Lemma join_without_crossing_raises :
  mapPartitions (func Planar.intersection [mkGate 7 [(5, -5); (5, 5)]%float])
                [[mkMicropath 0 0 4 0]; []]
  = Return [] /\
  df2 Planar.intersection [mkGate 7 [(5, -5); (5, 5)]%float]
      [[mkMicropath 0 0 4 0]; []]
  = Raise ValueError.
Proof. split; vm_compute; reflexivity. Qed.

Lemma name_geom_raises g e : name_geom g = Raise e -> e = IndexError.
Proof.
  unfold name_geom. destruct (shape g); intros H; inversion H. reflexivity.
Qed.

Lemma comprehension_raises bv g :
  In g bv -> shape g = [] -> comprehension name_geom bv = Raise IndexError.
Proof.
  induction bv as [|g' bv IH]; intros Hin Hshape; [destruct Hin|].
  cbn [comprehension].
  destruct (name_geom g') as [gate|e] eqn:Eg; cbn [bind].
  - destruct Hin as [->|Hin].
    + unfold name_geom in Eg. rewrite Hshape in Eg. discriminate.
    + rewrite (IH Hin Hshape). reflexivity.
  - now rewrite (name_geom_raises _ _ Eg).
Qed.

(** X9. One gate without coordinates fails every task: when a gate of the
    broadcast is an empty line, [func] raises IndexError on every partition,
    the empty one included, because the gates are named before the first
    micropath is read. *)
Theorem empty_gate_raises_index_error intersection bv g partition :
  In g bv -> shape g = [] ->
  func intersection bv partition = Raise IndexError.
Proof.
  intros Hin Hshape. unfold func.
  now rewrite (comprehension_raises bv g Hin Hshape).
Qed.

Lemma empty_gate_raises_index_error_witness :
  func Planar.intersection
       [mkGate 7 [(5, -5); (5, 5)]%float; mkGate 8 []] []
  = Raise IndexError.
Proof.
  apply (empty_gate_raises_index_error Planar.intersection
           [mkGate 7 [(5, -5); (5, 5)]%float; mkGate 8 []] (mkGate 8 []) []).
  - right. left. reflexivity.
  - reflexivity.
Defined.

Lemma comprehension_length {A B : Type} (f : A -> Py B) l bs :
  comprehension f l = Return bs -> List.length bs = List.length l.
Proof.
  revert bs. induction l as [|a l IH]; simpl; intros bs H.
  - now inversion H.
  - destruct (f a) as [b|e]; simpl in H; [|discriminate].
    destruct (comprehension f l) as [bs0|e]; simpl in H; [|discriminate].
    inversion H. simpl. now rewrite (IH bs0).
Qed.

Lemma for_yield_length {A B : Type} (f : A -> Py (list B)) (n : nat) l out :
  (forall a ys, f a = Return ys -> (List.length ys <= n)%nat) ->
  for_yield f l = Return out ->
  (List.length out <= List.length l * n)%nat.
Proof.
  intros Hf. revert out. induction l as [|a l IH]; simpl; intros out H.
  - inversion H. simpl. lia.
  - destruct (f a) as [ys|e] eqn:Ea; simpl in H; [|discriminate].
    destruct (for_yield f l) as [zs|e]; simpl in H; [|discriminate].
    inversion H. rewrite length_app.
    specialize (Hf a ys Ea). specialize (IH zs eq_refl). lia.
Qed.

Lemma visit_length intersection m gate ys :
  visit intersection m gate = Return ys -> (List.length ys <= 1)%nat.
Proof.
  destruct gate as [[[gid geom] gx] gy]. unfold visit.
  destruct (intersection geom (path_of m)); intros H; inversion H; simpl; lia.
Qed.

(** X10. [func] yields at most one row for a micropath and a gate: the rows
    of a partition are never more than its micropaths times the gates of
    the broadcast. *)
Theorem at_most_one_row_per_pair intersection bv partition out :
  func intersection bv partition = Return out ->
  (List.length out <= List.length partition * List.length bv)%nat.
Proof.
  unfold func. intros H.
  destruct (comprehension name_geom bv) as [gates|e] eqn:Eg; cbn [bind] in H;
    [|discriminate].
  rewrite <- (comprehension_length _ _ _ Eg).
  apply (for_yield_length _ _ _ _ (fun m ys Hm =>
           eq_ind _ (fun k => (List.length ys <= k)%nat)
                  (for_yield_length _ 1 _ _ (visit_length intersection m) Hm)
                  _ (Nat.mul_1_r _)) H).
Qed.

Lemma at_most_one_row_per_pair_witness :
  (List.length [mkCrossing 5 0 7 "LR"; mkCrossing 5 0 7 "RL"]
   <= List.length [mkMicropath 0 0 10 0; mkMicropath 10 0 0 0; mkMicropath 0 0 4 0]
      * List.length [mkGate 7 [(5, -5); (5, 5)]%float])%nat.
Proof.
  apply (at_most_one_row_per_pair Planar.intersection
           [mkGate 7 [(5, -5); (5, 5)]%float]
           [mkMicropath 0 0 10 0; mkMicropath 10 0 0 0; mkMicropath 0 0 4 0]).
  vm_compute. reflexivity.
Defined.

(** X11. Only the two ends of a gate decide its vector: for a gate drawn
    with vertices between its first and its last point, [name_geom] returns
    the last point minus the first, as for the straight gate. *)
Theorem gate_vector_ignores_inner_vertices gid a mid b :
  name_geom (mkGate gid (a :: mid ++ [b]))
  = Return (gid, a :: mid ++ [b],
            (fst b - fst a)%float, (snd b - snd a)%float) /\
  name_geom (mkGate gid [a; b])
  = Return (gid, [a; b], (fst b - fst a)%float, (snd b - snd a)%float).
Proof.
  split; [|reflexivity].
  unfold name_geom. cbn [shape GateID].
  change (a :: mid ++ [b]) with ((a :: mid) ++ [b]).
  rewrite last_last. reflexivity.
Qed.

Lemma SFeqb_refl u : u <> S754_nan -> SFeqb u u = true.
Proof.
  unfold SFeqb, SFcompare.
  destruct u as [[]|[]| |[] m e]; intros H; try reflexivity;
    try congruence;
    now rewrite Z.compare_refl, Pos.compare_cont_refl.
Qed.

Lemma is_nan_spec f : is_nan f = true -> Prim2SF f = S754_nan.
Proof.
  unfold is_nan. rewrite eqb_spec. intros H.
  destruct (Prim2SF f) eqn:E; try reflexivity;
    rewrite SFeqb_refl in H; discriminate.
Qed.

Lemma SFmul_nan_l u : SF64mul S754_nan u = S754_nan.
Proof. reflexivity. Qed.

Lemma SFmul_nan_r u : SF64mul u S754_nan = S754_nan.
Proof. destruct u; reflexivity. Qed.

Lemma SFsub_nan_l u : SF64sub S754_nan u = S754_nan.
Proof. reflexivity. Qed.

Lemma SFsub_nan_r u : SF64sub u S754_nan = S754_nan.
Proof. destruct u; reflexivity. Qed.

(** X12. A coordinate difference that is no number is never reported as
    right to left: when one of the four components of the micropath vector
    and the gate vector is NaN, the direction is "LR". *)
Theorem nan_is_reported_left_to_right px py gx gy :
  is_nan px || is_nan py || is_nan gx || is_nan gy = true ->
  lr_rl px py gx gy = "LR"%string.
Proof.
  intros H. unfold lr_rl, cross.
  rewrite ltb_zero_r, sub_spec, !mul_spec.
  replace (SF64sub _ _) with S754_nan; [reflexivity|].
  repeat (apply orb_true_iff in H; destruct H as [H|H]);
    apply is_nan_spec in H; rewrite H;
    rewrite ?SFmul_nan_l, ?SFmul_nan_r, ?SFsub_nan_l, ?SFsub_nan_r;
    reflexivity.
Qed.

Lemma nan_is_reported_left_to_right_witness :
  lr_rl (-10) nan 0 10 = "LR"%string.
Proof.
  apply (nan_is_reported_left_to_right (-10) nan 0 10). reflexivity.
Defined.

(** The loops of [func] over named gates. *)
Lemma for_yield_no_gate intersection partition out :
  for_yield (fun m : Micropath => for_yield (visit intersection m) [])
            partition = Return out ->
  out = [].
Proof.
  revert out. induction partition as [|m p IH]; simpl; intros out H.
  - now inversion H.
  - destruct (for_yield _ p) as [zs|e]; simpl in H; [|discriminate].
    inversion H; subst. now apply IH.
Qed.

Lemma for_yield_split {A B : Type} (f f1 f2 : A -> Py (list B)) l out :
  (forall a, f a = y1 <- f1 a ;; y2 <- f2 a ;; Return (y1 ++ y2)) ->
  for_yield f l = Return out ->
  exists o1 o2,
    for_yield f1 l = Return o1 /\ for_yield f2 l = Return o2 /\
    Permutation out (o1 ++ o2).
Proof.
  intros Hf. revert out. induction l as [|a l IH]; intros out H.
  - inversion H. exists [], []. auto.
  - cbn [for_yield] in H |- *. rewrite Hf in H.
    destruct (f1 a) as [y1|e]; cbn [bind] in H |- *; [|discriminate].
    destruct (f2 a) as [y2|e]; cbn [bind] in H |- *; [|discriminate].
    destruct (for_yield f l) as [zs|e]; cbn [bind] in H; [|discriminate].
    destruct (IH zs eq_refl) as (o1 & o2 & -> & -> & Hperm).
    cbn [bind]. inversion H.
    exists (y1 ++ o1), (y2 ++ o2). repeat split.
    rewrite <- !app_assoc. apply Permutation_app_head.
    rewrite Hperm, !app_assoc. apply Permutation_app_tail, Permutation_app_comm.
Qed.

Lemma for_yield_first_gate intersection gate gates partition out :
  for_yield (fun m => for_yield (visit intersection m) (gate :: gates))
            partition = Return out ->
  exists o1 o2,
    for_yield (fun m => for_yield (visit intersection m) [gate]) partition
    = Return o1 /\
    for_yield (fun m => for_yield (visit intersection m) gates) partition
    = Return o2 /\
    Permutation out (o1 ++ o2).
Proof.
  apply for_yield_split. intros m. cbn [for_yield].
  destruct (visit intersection m gate) as [ys|e]; cbn [bind]; [|reflexivity].
  destruct (for_yield (visit intersection m) gates) as [zs|e]; cbn [bind];
    [|reflexivity].
  now rewrite app_nil_r.
Qed.

Lemma func_of_named intersection g gate partition :
  name_geom g = Return gate ->
  func intersection [g] partition
  = for_yield (fun m => for_yield (visit intersection m) [gate]) partition.
Proof. intros H. unfold func. cbn [comprehension]. now rewrite H. Qed.

(** X13. The gates do not influence each other: when [func] returns for a
    broadcast, it returns for each of its gates alone, and its rows are,
    up to their order, the rows of the gates taken one at a time. *)
Theorem gates_are_independent intersection bv partition out :
  func intersection bv partition = Return out ->
  exists outs,
    Forall2 (fun g o => func intersection [g] partition = Return o) bv outs /\
    Permutation out (List.concat outs).
Proof.
  unfold func at 1.
  destruct (comprehension name_geom bv) as [gates|e] eqn:Eg; cbn [bind];
    [|discriminate].
  revert gates Eg out. induction bv as [|g bv IH]; intros gates Eg out H.
  - inversion Eg; subst. apply for_yield_no_gate in H. subst.
    exists []. split; constructor.
  - cbn [comprehension] in Eg.
    destruct (name_geom g) as [gate|e] eqn:Ename; cbn [bind] in Eg;
      [|discriminate].
    destruct (comprehension name_geom bv) as [gates'|e]; cbn [bind] in Eg;
      [|discriminate].
    inversion Eg; subst.
    destruct (for_yield_first_gate _ _ _ _ _ H) as (o1 & o2 & H1 & H2 & Hperm).
    destruct (IH gates' eq_refl o2 H2) as (outs & Hall & Hperm').
    exists (o1 :: outs). split.
    + constructor; [|assumption].
      now rewrite (func_of_named _ _ _ _ Ename).
    + cbn [List.concat]. rewrite Hperm. now apply Permutation_app_head.
Qed.

Lemma gates_are_independent_witness :
  exists outs,
    Forall2 (fun g o =>
               func Planar.intersection [g]
                    [mkMicropath 0 0 10 0; mkMicropath 10 0 0 0] = Return o)
            [mkGate 7 [(5, -5); (5, 5)]%float; mkGate 8 [(8, 5); (8, -5)]%float]
            outs /\
    Permutation [mkCrossing 5 0 7 "LR"; mkCrossing 8 0 8 "RL";
                 mkCrossing 5 0 7 "RL"; mkCrossing 8 0 8 "LR"]
                (List.concat outs).
Proof.
  apply (gates_are_independent Planar.intersection
           [mkGate 7 [(5, -5); (5, 5)]%float; mkGate 8 [(8, 5); (8, -5)]%float]
           [mkMicropath 0 0 10 0; mkMicropath 10 0 0 0]).
  vm_compute. reflexivity.
Defined.

(** ** GateStats, again *)

Lemma func_row_origin intersection bv partition out c :
  func intersection bv partition = Return out -> In c out ->
  In (gate_id c) (map GateID bv) /\
  (travel_dir c = "LR"%string \/ travel_dir c = "RL"%string).
Proof.
  unfold func. intros H Hc.
  destruct (comprehension name_geom bv) as [gates|e] eqn:Eg; cbn [bind] in H;
    [|discriminate].
  destruct (for_yield_In _ _ _ _ H Hc) as (m & ys & _ & Hys & Hc').
  destruct (for_yield_In _ _ _ _ Hys Hc') as (gate & zs & Hgate & Hzs & Hc'').
  destruct (comprehension_In _ _ _ _ Eg Hgate) as (g & Hg & Hname).
  destruct (name_geom_Return _ _ Hname) as (head & _ & ->).
  destruct (visit_In _ _ _ _ _ _ _ _ Hzs Hc'') as (_ & Hid & Hdir).
  split.
  - rewrite Hid. now apply in_map.
  - rewrite Hdir. unfold lr_rl. destruct (_ <? _)%float; auto.
Qed.

Lemma gate_stats_keys v5rows :
  Permutation (map stat_key (gate_stats v5rows))
              (nodup key_eq_dec (map key_of v5rows)).
Proof.
  rewrite <- group_by_keys. apply Permutation_map, order_by_perm.
Qed.

Lemma gate_stats_key_occurs v5rows s :
  In s (gate_stats v5rows) -> In (stat_key s) (map key_of v5rows).
Proof.
  intros Hs. apply (nodup_In key_eq_dec).
  apply (Permutation_in _ (gate_stats_keys v5rows)). now apply in_map.
Qed.

(** X14. The statistics of a join name only gates of the broadcast and only
    the two directions, so they have at most two rows for each gate. *)
Theorem gate_stats_of_join_at_most_two_rows_per_gate
        intersection bv partition out :
  func intersection bv partition = Return out ->
  Forall (fun s => In (stat_gate_id s) (map GateID bv) /\
                   (stat_travel_dir s = "LR"%string \/
                    stat_travel_dir s = "RL"%string))
         (gate_stats out) /\
  (List.length (gate_stats out) <= 2 * List.length bv)%nat.
Proof.
  intros H.
  assert (Hrow : forall s, In s (gate_stats out) ->
                           In (stat_gate_id s) (map GateID bv) /\
                           (stat_travel_dir s = "LR"%string \/
                            stat_travel_dir s = "RL"%string)).
  { intros s Hs. apply gate_stats_key_occurs in Hs.
    apply in_map_iff in Hs. destruct Hs as (c & Hkey & Hc).
    destruct (func_row_origin _ _ _ _ _ H Hc) as [Hid Hdir].
    unfold key_of, stat_key in Hkey. inversion Hkey as [[Hi Hd]].
    auto. }
  split; [now apply Forall_forall|].
  rewrite <- (length_map stat_key).
  replace (2 * List.length bv)%nat
    with (List.length (list_prod (map GateID bv) ["LR"; "RL"]%string)).
  - apply NoDup_incl_length.
    + apply (Permutation_NoDup (Permutation_sym (gate_stats_keys out))).
      apply NoDup_nodup.
    + intros k Hk. apply in_map_iff in Hk. destruct Hk as (s & <- & Hs).
      destruct (Hrow s Hs) as [Hid Hdir]. unfold stat_key.
      apply in_prod; [assumption|].
      destruct Hdir as [-> | ->]; simpl; auto.
  - rewrite length_prod, length_map. simpl. lia.
Qed.

Lemma gate_stats_of_join_at_most_two_rows_per_gate_witness :
  Forall (fun s => In (stat_gate_id s)
                      (map GateID [mkGate 7 [(5, -5); (5, 5)]%float]) /\
                   (stat_travel_dir s = "LR"%string \/
                    stat_travel_dir s = "RL"%string))
         (gate_stats [mkCrossing 5 0 7 "LR"; mkCrossing 5 0 7 "RL"]) /\
  (List.length (gate_stats [mkCrossing 5 0 7 "LR"; mkCrossing 5 0 7 "RL"])
   <= 2 * List.length [mkGate 7 [(5, -5); (5, 5)]%float])%nat.
Proof.
  apply (gate_stats_of_join_at_most_two_rows_per_gate Planar.intersection
           [mkGate 7 [(5, -5); (5, 5)]%float]
           [mkMicropath 0 0 10 0; mkMicropath 10 0 0 0; mkMicropath 0 0 4 0]).
  vm_compute. reflexivity.
Defined.

Lemma gate_stats_row v5rows s :
  In s (gate_stats v5rows) ->
  s = mkStat (stat_gate_id s) (stat_travel_dir s)
             (count_key (stat_key s) v5rows).
Proof.
  intros Hs. apply (Permutation_in _ (order_by_perm _)) in Hs.
  unfold group_by in Hs. apply in_map_iff in Hs.
  destruct Hs as ([i d] & <- & _). reflexivity.
Qed.

(** X15. GateStats has no empty group: every [cnt] is at least 1 and at most
    the number of rows of v5. *)
Theorem gate_stats_counts_are_positive v5rows :
  Forall (fun s => 1 <= cnt s <= Z.of_nat (List.length v5rows))
         (gate_stats v5rows).
Proof.
  apply Forall_forall. intros s Hs.
  pose proof (gate_stats_key_occurs _ _ Hs) as Hocc.
  rewrite (gate_stats_row _ _ Hs). cbn [cnt].
  split.
  - rewrite count_key_occ.
    apply (count_occ_In key_eq_dec) in Hocc. lia.
  - unfold count_key. apply inj_le, filter_length_le.
Qed.

Lemma string_ltb_trans a b c :
  String.ltb a b = true -> String.ltb b c = true -> String.ltb a c = true.
Proof.
  unfold String.ltb. intros Hab Hbc.
  destruct (String.compare a b) eqn:Eab; try discriminate.
  destruct (String.compare b c) eqn:Ebc; try discriminate.
  apply OrderedTypeEx.String_as_OT.cmp_lt in Eab, Ebc.
  pose proof (OrderedTypeEx.String_as_OT.lt_trans _ _ _ Eab Ebc) as Hac.
  apply OrderedTypeEx.String_as_OT.cmp_lt in Hac.
  unfold OrderedTypeEx.String_as_OT.cmp in Hac. now rewrite Hac.
Qed.

Lemma string_ltb_irrefl a : String.ltb a a = false.
Proof.
  unfold String.ltb.
  destruct (String.compare a a) eqn:E; try reflexivity.
  pose proof (String.compare_antisym a a) as H. rewrite E in H. discriminate.
Qed.

Lemma key_lt_trans a b c : key_lt a b -> key_lt b c -> key_lt a c.
Proof.
  unfold key_lt. intros [H1|[H1 H1']] [H2|[H2 H2']]; try (left; lia).
  right. split; [lia|]. eapply string_ltb_trans; eassumption.
Qed.

Lemma key_lt_irrefl a : ~ key_lt a a.
Proof.
  unfold key_lt. intros [H|[_ H]]; [lia|].
  rewrite string_ltb_irrefl in H. discriminate.
Qed.

(** Two lists in strict ascending order with the same members are equal. *)
Lemma ascending_unique {A : Type} (R : A -> A -> Prop) :
  (forall a, ~ R a a) -> (forall a b c, R a b -> R b c -> R a c) ->
  forall l l', StronglySorted R l -> StronglySorted R l' ->
               (forall a, In a l <-> In a l') -> l = l'.
Proof.
  intros Hirr Htrans. induction l as [|a l IH]; intros l' Hs Hs' Hin.
  - destruct l' as [|a' l']; [reflexivity|].
    destruct (proj2 (Hin a')); now left.
  - destruct l' as [|a' l']; [destruct (proj1 (Hin a)); now left|].
    inversion Hs as [|? ? Hsl Hal]; subst.
    inversion Hs' as [|? ? Hsl' Hal']; subst.
    rewrite Forall_forall in Hal, Hal'.
    assert (Heq : a = a').
    { destruct (proj1 (Hin a) (or_introl eq_refl)) as [E|Ha]; [now symmetry|].
      destruct (proj2 (Hin a') (or_introl eq_refl)) as [E|Ha']; [assumption|].
      exfalso. apply (Hirr a). eapply Htrans; eauto. }
    subst a'. f_equal. apply IH; try assumption.
    intros b. split; intros Hb.
    + destruct (proj1 (Hin b) (or_intror Hb)) as [E|Hb']; [|assumption].
      subst b. exfalso. apply (Hirr a). now apply Hal.
    + destruct (proj2 (Hin b) (or_intror Hb)) as [E|Hb']; [|assumption].
      subst b. exfalso. apply (Hirr a). now apply Hal'.
Qed.

Lemma sorted_rows_strict l :
  Sorted (fun a b => key_leb (stat_key a) (stat_key b) = true) l ->
  NoDup (map stat_key l) ->
  StronglySorted (fun a b => key_lt (stat_key a) (stat_key b)) l.
Proof.
  intros Hs Hnd. apply Sorted_StronglySorted.
  - intros a b c. apply key_lt_trans.
  - induction Hs as [|s l Hs IH Hd]; [constructor|].
    cbn [map] in Hnd. inversion Hnd as [|? ? Hout Hnd']; subst.
    constructor; [auto|].
    destruct Hd as [|s' l' Hr]; constructor.
    apply key_leb_strict; [assumption|].
    intros E. apply Hout. left. now symmetry.
Qed.

Lemma gate_stats_ascending v5rows :
  StronglySorted (fun a b => key_lt (stat_key a) (stat_key b))
                 (gate_stats v5rows).
Proof.
  apply sorted_rows_strict; [apply order_by_sorted|].
  apply (Permutation_NoDup (Permutation_sym (gate_stats_keys v5rows))).
  apply NoDup_nodup.
Qed.

Lemma gate_stats_member v5rows s :
  In s (gate_stats v5rows) <->
  In (stat_key s) (map key_of v5rows) /\
  s = mkStat (stat_gate_id s) (stat_travel_dir s)
             (count_key (stat_key s) v5rows).
Proof.
  split.
  - intros Hs. split; [now apply gate_stats_key_occurs|now apply gate_stats_row].
  - intros [Hk ->]. apply (Permutation_in _ (Permutation_sym (order_by_perm _))).
    unfold group_by. apply in_map_iff.
    exists (stat_key s). split; [reflexivity|]. now apply nodup_In.
Qed.

(** X16. GateStats depends on the rows of v5, not on their order: the same
    crossings in another order (other partitions, another schedule) give
    the same table, row for row. *)
Theorem gate_stats_ignore_row_order v5rows v5rows' :
  Permutation v5rows v5rows' ->
  gate_stats v5rows = gate_stats v5rows'.
Proof.
  intros Hperm.
  apply (ascending_unique (fun a b => key_lt (stat_key a) (stat_key b))).
  - intros a. apply key_lt_irrefl.
  - intros a b c. apply key_lt_trans.
  - apply gate_stats_ascending.
  - apply gate_stats_ascending.
  - intros s. rewrite !gate_stats_member.
    assert (Hcount : count_key (stat_key s) v5rows
                     = count_key (stat_key s) v5rows').
    { rewrite !count_key_occ. f_equal.
      apply (Permutation_count_occ key_eq_dec). now apply Permutation_map. }
    rewrite Hcount.
    split; intros [Hk Hs]; (split; [|assumption]);
      revert Hk; apply Permutation_in, Permutation_map;
      [|symmetry]; assumption.
Qed.

Lemma gate_stats_ignore_row_order_witness :
  gate_stats [mkCrossing 5 0 7 "RL"; mkCrossing 1 1 3 "LR"; mkCrossing 5 0 7 "LR"]
  = gate_stats [mkCrossing 1 1 3 "LR"; mkCrossing 5 0 7 "LR"; mkCrossing 5 0 7 "RL"].
Proof.
  apply (gate_stats_ignore_row_order
           [mkCrossing 5 0 7 "RL"; mkCrossing 1 1 3 "LR"; mkCrossing 5 0 7 "LR"]
           [mkCrossing 1 1 3 "LR"; mkCrossing 5 0 7 "LR"; mkCrossing 5 0 7 "RL"]).
  apply Permutation_cons_app with (l1 := [mkCrossing 1 1 3 "LR"; mkCrossing 5 0 7 "LR"])
                                  (l2 := []).
  rewrite app_nil_r. apply Permutation_refl.
Defined.

(** ** Spatial binning *)

Lemma total_of_nat {A : Type} (f : A -> nat) l :
  total (map (fun a => Z.of_nat (f a)) l) = Z.of_nat (list_sum (map f l)).
Proof.
  unfold total. induction l as [|a l IH]; [reflexivity|].
  cbn [map fold_right list_sum].
  change (fold_right Nat.add 0%nat ?l) with (list_sum l).
  rewrite IH. lia.
Qed.

Lemma total_le {A : Type} (g h : A -> Z) l :
  (forall a, In a l -> g a <= h a) ->
  total (map g l) <= total (map h l).
Proof.
  unfold total. induction l as [|a l IH]; intros H; [reflexivity|].
  cbn [map fold_right].
  assert (g a <= h a) by (apply H; now left).
  assert (fold_right Z.add 0 (map g l) <= fold_right Z.add 0 (map h l)).
  { apply IH. intros b Hb. apply H. now right. }
  lia.
Qed.

Lemma NoDup_map_injective {A B : Type} (f : A -> B) l :
  (forall a b, f a = f b -> a = b) -> NoDup l -> NoDup (map f l).
Proof.
  intros Hinj. induction 1 as [|a l Ha Hnd IH]; cbn [map]; constructor;
    [|assumption].
  intros Hin. apply in_map_iff in Hin. destruct Hin as (b & E & Hb).
  apply Hinj in E. now subst.
Qed.

Lemma bin_rows_pop v0 :
  map Binning.pop (Binning.rows v0)
  = map (fun k => Z.min (Z.of_nat (count_occ Binning.cell_eq_dec (Binning.t v0) k))
                        400)
        (nodup Binning.cell_eq_dec (Binning.t v0)).
Proof. unfold Binning.rows. rewrite map_map. reflexivity. Qed.

(** X17. The population of a bin is at least 1 and at most 400: a bin is a
    cell that holds a point, and [least] caps its count. *)
Theorem bin_population_between_1_and_400 v0 :
  Forall (fun b => 1 <= Binning.pop b <= 400) (Binning.rows v0).
Proof.
  apply Forall_forall. intros b Hb.
  unfold Binning.rows in Hb. apply in_map_iff in Hb.
  destruct Hb as (k & <- & Hk). apply nodup_In in Hk.
  apply (count_occ_In Binning.cell_eq_dec) in Hk.
  cbn [Binning.bin_of Binning.pop]. lia.
Qed.

(** X18. There is one bin for each cell that holds a point: every point has
    the bin of its cell, at the centre [(q*200+100, r*200+100)]; no two
    bins have the same centre; and the bins are not more than the points. *)
Theorem one_bin_per_occupied_cell v0 :
  Forall (fun p => exists b,
            In b (Binning.rows v0) /\
            Binning.bin_x b = fst (Binning.cell p) * 200 + 100 /\
            Binning.bin_y b = snd (Binning.cell p) * 200 + 100)
         v0 /\
  NoDup (map (fun b => (Binning.bin_x b, Binning.bin_y b)) (Binning.rows v0)) /\
  (List.length (Binning.rows v0) <= List.length v0)%nat.
Proof.
  split; [|split].
  - apply Forall_forall. intros p Hp.
    exists (Binning.bin_of (Binning.t v0) (Binning.cell p)).
    split; [|split; reflexivity].
    unfold Binning.rows. apply in_map, nodup_In.
    unfold Binning.t. now apply in_map.
  - unfold Binning.rows. rewrite map_map.
    apply NoDup_map_injective; [|apply NoDup_nodup].
    intros [q r] [q' r'] E. cbn in E. inversion E. f_equal; lia.
  - unfold Binning.rows. rewrite length_map.
    rewrite <- (length_map Binning.cell v0). fold (Binning.t v0).
    apply NoDup_incl_length; [apply NoDup_nodup|].
    intros k Hk. now apply nodup_In in Hk.
Qed.

(** X19. The populations add up to the number of points when no cell holds
    more than 400 of them, and to less otherwise: the cap loses the points
    beyond the 400th of a cell and nothing else. *)
Theorem bin_populations_add_up v0 :
  total (map Binning.pop (Binning.rows v0)) <= Z.of_nat (List.length v0) /\
  ((forall k, (count_occ Binning.cell_eq_dec (Binning.t v0) k <= 400)%nat) ->
   total (map Binning.pop (Binning.rows v0)) = Z.of_nat (List.length v0)) /\
  ((exists k, (400 < count_occ Binning.cell_eq_dec (Binning.t v0) k)%nat) ->
   total (map Binning.pop (Binning.rows v0)) < Z.of_nat (List.length v0)).
Proof.
  assert (Hall : total (map (fun k => Z.of_nat
                               (count_occ Binning.cell_eq_dec (Binning.t v0) k))
                            (nodup Binning.cell_eq_dec (Binning.t v0)))
                 = Z.of_nat (List.length v0)).
  { rewrite total_of_nat, groups_share_out.
    unfold Binning.t. now rewrite length_map. }
  rewrite bin_rows_pop. split; [|split].
  - rewrite <- Hall. apply total_le. intros k _. lia.
  - intros Hsmall. rewrite <- Hall. f_equal. apply map_ext.
    intros k. specialize (Hsmall k). lia.
  - intros (k & Hk). rewrite <- Hall.
    assert (Hin : In k (nodup Binning.cell_eq_dec (Binning.t v0))).
    { apply nodup_In, (count_occ_In Binning.cell_eq_dec). lia. }
    apply in_split in Hin. destruct Hin as (l1 & l2 & ->).
    rewrite !map_app. cbn [map]. unfold total.
    rewrite !fold_right_app. cbn [fold_right].
    fold (total (map (fun k0 => Z.min (Z.of_nat (count_occ Binning.cell_eq_dec
                                                   (Binning.t v0) k0)) 400) l2)).
    fold (total (map (fun k0 => Z.of_nat (count_occ Binning.cell_eq_dec
                                            (Binning.t v0) k0)) l2)).
    assert (H2 : total (map (fun k0 => Z.min (Z.of_nat (count_occ Binning.cell_eq_dec
                                                          (Binning.t v0) k0)) 400) l2)
                 <= total (map (fun k0 => Z.of_nat (count_occ Binning.cell_eq_dec
                                                      (Binning.t v0) k0)) l2)).
    { apply total_le. intros; lia. }
    revert H2. generalize (total (map (fun k0 => Z.min (Z.of_nat (count_occ Binning.cell_eq_dec
                                                          (Binning.t v0) k0)) 400) l2)).
    generalize (total (map (fun k0 => Z.of_nat (count_occ Binning.cell_eq_dec
                                                      (Binning.t v0) k0)) l2)).
    intros u w Hwu.
    assert (Hacc : forall a b, a < b ->
              fold_right Z.add a
                (map (fun k0 => Z.min (Z.of_nat (count_occ Binning.cell_eq_dec
                                                   (Binning.t v0) k0)) 400) l1)
              < fold_right Z.add b
                  (map (fun k0 => Z.of_nat (count_occ Binning.cell_eq_dec
                                              (Binning.t v0) k0)) l1)).
    { induction l1 as [|k1 l1 IH]; intros a b Hab; cbn [map fold_right];
        [assumption|].
      specialize (IH a b Hab). lia. }
    apply Hacc. lia.
Qed.

Lemma bin_populations_add_up_witness :
  total (map Binning.pop
             (Binning.rows [(150, 10); (-150, 10); (250, 399)]%float))
  = 3.
Proof.
  apply (proj1 (proj2 (bin_populations_add_up
                         [(150, 10); (-150, 10); (250, 399)]%float))).
  intros k. etransitivity; [apply count_occ_bound|].
  unfold Binning.t. rewrite length_map. simpl. lia.
Defined.

(** X20. A coordinate that is no number is binned at cell 0: [cast] turns
    the NaN quotient into 0, so the point is counted in the bin whose
    centre is at 100 on that axis. *)
Theorem nan_coordinate_falls_in_cell_zero (p : float * float) :
  (is_nan (fst p) = true -> fst (Binning.cell p) = 0) /\
  (is_nan (snd p) = true -> snd (Binning.cell p) = 0).
Proof.
  assert (H : forall d, is_nan d = true ->
                        Binning.cast_long (d / Binning.cell0) = 0).
  { intros d Hd. apply is_nan_spec in Hd.
    unfold Binning.cast_long. rewrite div_spec, Hd. reflexivity. }
  split; intros Hnan; cbn [Binning.cell fst snd]; now apply H.
Qed.

Lemma nan_coordinate_falls_in_cell_zero_witness :
  fst (Binning.cell (nan, 250%float)) = 0.
Proof.
  apply (proj1 (nan_coordinate_falls_in_cell_zero (nan, 250%float))).
  reflexivity.
Defined.

(** ** Gates of length zero *)







(** ** Speeds are finite

    The quotient of a finite distance by a whole number of seconds that is
    at least 1 does not overflow: the square root of a double is far below
    the largest double, and the division only makes it smaller. *)

Lemma digits2_size p : digits2_pos p = Pos.size p.
Proof. induction p; simpl; congruence. Qed.

Lemma Zdigits2_bounds m :
  0 < m -> 2 ^ (Zdigits2 m - 1) <= m < 2 ^ Zdigits2 m.
Proof.
  destruct m as [|p|p]; try lia. intros _. cbn [Zdigits2].
  rewrite digits2_size.
  pose proof (Pos.size_gt p) as Hgt. pose proof (Pos.size_le p) as Hle.
  apply Pos2Z.pos_lt_pos in Hgt. apply Pos2Z.pos_le_pos in Hle.
  rewrite Pos2Z.inj_pow in Hgt, Hle.
  replace (Z.pos (Pos.size p)) with (Z.succ (Z.pos (Pos.size p) - 1)) in Hle at 1 by lia.
  rewrite Z.pow_succ_r in Hle by lia.
  change (Z.pos p~0) with (2 * Z.pos p) in Hle. lia.
Qed.

Lemma Zdigits2_nonneg m : 0 <= Zdigits2 m.
Proof. destruct m; simpl; lia. Qed.

Lemma Zdigits2_le m k : 0 <= m < 2 ^ k -> 0 <= k -> Zdigits2 m <= k.
Proof.
  intros [H0 Hk] Hkpos.
  destruct (Z.eq_dec m 0) as [->|Hne]; [simpl; lia|].
  destruct (Zdigits2_bounds m ltac:(lia)) as [Hlow _].
  destruct (Z_le_gt_dec (Zdigits2 m) k) as [|Hgt]; [assumption|exfalso].
  assert (2 ^ k <= 2 ^ (Zdigits2 m - 1)) by (apply Z.pow_le_mono_r; lia).
  lia.
Qed.

(** Shifting a mantissa to the right. *)

Lemma shr_1_m mrs : 0 <= shr_m mrs -> shr_m (shr_1 mrs) = Z.div2 (shr_m mrs).
Proof.
  destruct mrs as [m r s]. cbn [shr_m]. intros H.
  destruct m as [|[p|p|]|p]; try reflexivity. lia.
Qed.

Lemma halved_once x : 0 <= shr_m x -> halved 1 x (shr_1 x).
Proof.
  intros H. unfold halved. rewrite shr_1_m by assumption.
  pose proof (Z.div2_odd (shr_m x)) as E.
  destruct (Z.odd (shr_m x)); cbn [Z.b2z] in E; lia.
Qed.

Lemma halved_trans a b x y z :
  0 <= a -> 0 <= b -> halved a x y -> halved b y z -> halved (a + b) x z.
Proof.
  unfold halved. intros Ha Hb [Hy Hxy] [Hz Hyz]. split; [assumption|].
  rewrite Z.pow_add_r by assumption.
  assert (0 < 2 ^ a) by (apply Z.pow_pos_nonneg; lia).
  assert (shr_m z * 2 ^ b * 2 ^ a <= shr_m y * 2 ^ a)
    by (apply Z.mul_le_mono_nonneg_r; lia).
  lia.
Qed.

Lemma iter_shr_1 p x :
  0 <= shr_m x -> halved (Z.pos p) x (iter_pos shr_1 p x).
Proof.
  revert x. induction p as [p IH|p IH|]; intros x H; cbn [iter_pos].
  - pose proof (halved_once x H) as H1.
    pose proof (IH _ (proj1 H1)) as H2.
    pose proof (IH _ (proj1 H2)) as H3.
    replace (Z.pos p~1) with (1 + (Z.pos p + Z.pos p)) by lia.
    eapply halved_trans; [lia|lia|exact H1|].
    eapply halved_trans; [lia|lia|exact H2|exact H3].
  - pose proof (IH _ H) as H2.
    pose proof (IH _ (proj1 H2)) as H3.
    replace (Z.pos p~0) with (Z.pos p + Z.pos p) by lia.
    eapply halved_trans; [lia|lia|exact H2|exact H3].
  - now apply halved_once.
Qed.

Lemma shr_record_of_loc_m m l : shr_m (shr_record_of_loc m l) = m.
Proof. destruct l as [|[]]; reflexivity. Qed.

Lemma shr_fexp_spec m e l :
  0 <= m ->
  0 <= shr_m (fst (shr_fexp prec emax m e l)) /\
  (snd (shr_fexp prec emax m e l) = e \/
   (e < snd (shr_fexp prec emax m e l) /\
    snd (shr_fexp prec emax m e l) = fexp prec emax (Zdigits2 m + e))) /\
  shr_m (fst (shr_fexp prec emax m e l))
  * 2 ^ (snd (shr_fexp prec emax m e l) - e) <= m.
Proof.
  intros H. unfold shr_fexp, shr.
  destruct (fexp prec emax (Zdigits2 m + e) - e) as [|n|n] eqn:En;
    cbn [fst snd]; rewrite ?shr_record_of_loc_m, ?Z.sub_diag, ?Z.mul_1_r.
  - repeat split; try lia; auto.
  - destruct (iter_shr_1 n (shr_record_of_loc m l)) as [H1 H2].
    { now rewrite shr_record_of_loc_m. }
    rewrite shr_record_of_loc_m in H2.
    replace (e + Z.pos n - e) with (Z.pos n) by lia.
    repeat split; try assumption. right. lia.
  - repeat split; try lia; auto.
Qed.

Lemma round_nearest_even_bounds m l :
  m <= round_nearest_even m l <= m + 1.
Proof.
  destruct l as [|[]]; cbn [round_nearest_even]; try lia.
  destruct (Z.even m); lia.
Qed.

Lemma fexp_mono a b : a <= b -> fexp prec emax a <= fexp prec emax b.
Proof. unfold fexp, emin, prec, emax. lia. Qed.

(** No overflow: a mantissa and an exponent whose rounding stays below the
    largest exponent give zero or a finite number. *)
Lemma binary_round_aux_finite s m e l :
  0 <= m ->
  Z.max e (fexp prec emax (Zdigits2 m + e + 1)) <= emax - prec ->
  match binary_round_aux prec emax s m e l with
  | S754_zero _ => True
  | S754_finite _ _ e'' => e'' <= Z.max e (fexp prec emax (Zdigits2 m + e + 1))
  | _ => False
  end.
Proof.
  intros Hm Hbound. unfold binary_round_aux.
  destruct (shr_fexp_spec m e l Hm) as (H1 & He1 & Hmul).
  destruct (shr_fexp prec emax m e l) as [mrs' e1]. cbn [fst snd] in *.
  pose proof (round_nearest_even_bounds (shr_m mrs') (loc_of_shr_record mrs'))
    as Hround.
  set (mx := round_nearest_even (shr_m mrs') (loc_of_shr_record mrs')) in *.
  assert (Hmx : 0 <= mx) by lia.
  destruct (shr_fexp_spec mx e1 loc_Exact Hmx) as (H2 & He2 & _).
  destruct (shr_fexp prec emax mx e1 loc_Exact) as [mrs'' e2].
  cbn [fst snd] in *.
  (* the digits of the rounded mantissa *)
  assert (Hk : 0 <= e1 - e) by lia.
  assert (Hdig : Zdigits2 mx + e1 <= Z.max (Zdigits2 m + e) e1 + 1).
  { set (D := Zdigits2 m) in *. set (k := e1 - e) in *.
    assert (HD : 0 <= D) by apply Zdigits2_nonneg.
    assert (Hm1 : shr_m mrs' < 2 ^ (Z.max (D - k) 0)).
    { destruct (Z.eq_dec m 0) as [E0|Hne].
      - assert (0 < 2 ^ k) by (apply Z.pow_pos_nonneg; lia).
        assert (0 < 2 ^ Z.max (D - k) 0) by (apply Z.pow_pos_nonneg; lia).
        nia.
      - destruct (Zdigits2_bounds m ltac:(lia)) as [_ Hup]. fold D in Hup.
        destruct (Z_le_gt_dec k D) as [Hle|Hgt].
        + rewrite Z.max_l by lia.
          replace D with ((D - k) + k) in Hup by lia.
          rewrite Z.pow_add_r in Hup by lia.
          assert (0 < 2 ^ k) by (apply Z.pow_pos_nonneg; lia).
          nia.
        + rewrite Z.max_r by lia. cbn.
          assert (2 ^ D <= 2 ^ k) by (apply Z.pow_le_mono_r; lia).
          assert (0 < 2 ^ k) by (apply Z.pow_pos_nonneg; lia).
          nia. }
    assert (Hle : Zdigits2 mx <= Z.max (D - k) 0 + 1).
    { apply Zdigits2_le; [|lia]. split; [lia|].
      rewrite Z.pow_add_r by lia. cbn. lia. }
    lia. }
  assert (He2' : e2 <= Z.max e (fexp prec emax (Zdigits2 m + e + 1))).
  { assert (F1 : fexp prec emax (Zdigits2 m + e)
                 <= fexp prec emax (Zdigits2 m + e + 1))
      by (apply fexp_mono; lia).
    assert (F2 : fexp prec emax (Zdigits2 mx + e1)
                 <= fexp prec emax (Z.max (Zdigits2 m + e) e1 + 1))
      by (apply fexp_mono; lia).
    revert F1 F2 He1 He2. unfold fexp, emin, prec, emax. lia. }
  destruct (shr_m mrs'') as [|q|q]; try exact I; [|lia].
  destruct (e2 <=? emax - prec) eqn:E; [assumption|].
  apply Z.leb_gt in E. lia.
Qed.

Lemma canonical_exponent s m e :
  valid_binary (S754_finite s m e) = true ->
  fexp prec emax (Z.pos (digits2_pos m) + e) = e /\ e <= emax - prec.
Proof.
  cbn [SpecFloat.valid_binary]. unfold bounded, canonical_mantissa.
  intros H. apply andb_true_iff in H. destruct H as [H1 H2].
  apply Z.eqb_eq in H1. apply Z.leb_le in H2. auto.
Qed.

(** A quotient by a number that is at least 1 does not overflow. *)
Lemma SFdiv_finite sx mx ex sy my ey :
  valid_binary (S754_finite sx mx ex) = true ->
  ex <= emax - prec - 1 ->
  1 <= Z.pos (digits2_pos my) + ey ->
  sf_finite (SF64div (S754_finite sx mx ex) (S754_finite sy my ey)) = true.
Proof.
  intros Hvalid Hex Hy.
  destruct (canonical_exponent _ _ _ Hvalid) as [Hcan _].
  unfold SF64div, SFdiv, SFdiv_core_binary.
  cbn [Zdigits2].
  set (d1 := Z.pos (digits2_pos mx)) in *.
  set (d2 := Z.pos (digits2_pos my)) in *.
  set (e' := Z.min (fexp prec emax (d1 + ex - (d2 + ey))) (ex - ey)).
  set (s := ex - ey - e').
  assert (Hs : 0 <= s) by (unfold s, e'; lia).
  set (m' := match s with
             | 0 => Z.pos mx
             | Z.pos _ => Z.shiftl (Z.pos mx) s
             | Z.neg _ => 0
             end).
  assert (Hm' : m' = Z.pos mx * 2 ^ s).
  { unfold m'. destruct s as [|n|n] eqn:Es.
    - cbn. lia.
    - now rewrite Z.shiftl_mul_pow2 by lia.
    - lia. }
  pose proof (Z_div_mod m' (Z.pos my) ltac:(lia)) as Hdiv.
  destruct (Z.div_eucl m' (Z.pos my)) as [q r]. destruct Hdiv as [Hq Hr].
  assert (H2s : 0 < 2 ^ s) by (apply Z.pow_pos_nonneg; lia).
  assert (Hq0 : 0 <= q) by nia.
  destruct (Zdigits2_bounds (Z.pos mx) ltac:(lia)) as [_ Hmx].
  destruct (Zdigits2_bounds (Z.pos my) ltac:(lia)) as [Hmy _].
  cbn [Zdigits2] in Hmx, Hmy. fold d1 in Hmx. fold d2 in Hmy.
  assert (Hd1 : 1 <= d1) by (unfold d1; lia).
  assert (Hd2 : 1 <= d2) by (unfold d2; lia).
  assert (Hqm : q * 2 ^ (d2 - 1) < 2 ^ (d1 + s)).
  { rewrite Z.pow_add_r by lia.
    assert (0 < 2 ^ (d2 - 1)) by (apply Z.pow_pos_nonneg; lia).
    nia. }
  assert (Hdq : Zdigits2 q <= Z.max (d1 + s - d2 + 1) 0).
  { apply Zdigits2_le; [|lia]. split; [assumption|].
    destruct (Z_le_gt_dec 0 (d1 + s - d2 + 1)) as [Hle|Hgt].
    - rewrite Z.max_l by lia.
      replace (d1 + s) with ((d1 + s - d2 + 1) + (d2 - 1)) in Hqm by lia.
      rewrite Z.pow_add_r in Hqm by lia.
      assert (0 < 2 ^ (d2 - 1)) by (apply Z.pow_pos_nonneg; lia).
      nia.
    - rewrite Z.max_r by lia. cbn.
      assert (2 ^ (d1 + s) <= 2 ^ (d2 - 1)) by (apply Z.pow_le_mono_r; lia).
      assert (0 < 2 ^ (d2 - 1)) by (apply Z.pow_pos_nonneg; lia).
      nia. }
  pose proof (binary_round_aux_finite (xorb sx sy) q e'
                (new_location (Z.pos my) r) Hq0) as Hfin.
  assert (Hbound : Z.max e' (fexp prec emax (Zdigits2 q + e' + 1))
                   <= emax - prec).
  { assert (He'x : e' <= ex).
    { assert (fexp prec emax (d1 + ex - (d2 + ey)) <= fexp prec emax (d1 + ex))
        by (apply fexp_mono; lia).
      unfold e'. lia. }
    assert (F : fexp prec emax (Zdigits2 q + e' + 1)
                <= fexp prec emax (d1 + ex + 1)).
    { apply fexp_mono. unfold s in Hdq. lia. }
    revert F Hcan Hex He'x. unfold fexp, emin, prec, emax. lia. }
  specialize (Hfin Hbound).
  destruct (binary_round_aux prec emax (xorb sx sy) q e'
              (new_location (Z.pos my) r)); try reflexivity; contradiction.
Qed.

(** The exponent of a square root is far from the largest. *)
Lemma SFsqrt_exponent u :
  valid_binary u = true ->
  match SF64sqrt u with
  | S754_finite _ _ e => e <= emax - prec - 1
  | _ => True
  end.
Proof.
  intros Hvalid. unfold SF64sqrt.
  destruct u as [[]|[]| |[] mu eu]; try exact I.
  destruct (canonical_exponent _ _ _ Hvalid) as [Hcan Heu].
  cbn [SFsqrt]. unfold SFsqrt_core_binary. cbn [Zdigits2].
  set (d := Z.pos (digits2_pos mu)) in *.
  set (e' := Z.min (fexp prec emax (Z.div2 (d + eu + 1))) (Z.div2 eu)).
  set (s := eu - 2 * e').
  assert (He' : 2 * e' <= eu).
  { pose proof (Z.div2_odd eu) as E. unfold e'.
    destruct (Z.odd eu); cbn [Z.b2z] in E; lia. }
  assert (Hs : 0 <= s) by (unfold s; lia).
  set (m' := match s with
             | 0 => Z.pos mu
             | Z.pos _ => Z.shiftl (Z.pos mu) s
             | Z.neg _ => 0
             end).
  assert (Hm' : m' = Z.pos mu * 2 ^ s).
  { unfold m'. destruct s as [|n|n] eqn:Es.
    - cbn. lia.
    - now rewrite Z.shiftl_mul_pow2 by lia.
    - lia. }
  assert (H2s : 0 < 2 ^ s) by (apply Z.pow_pos_nonneg; lia).
  pose proof (Z.sqrtrem_sqrt m') as Hfst.
  destruct (Z.sqrtrem m') as [q r]. cbn [fst] in Hfst. subst q.
  assert (Hm0 : 0 <= m') by (rewrite Hm'; apply Z.mul_nonneg_nonneg; lia).
  pose proof (Z.sqrt_spec m' Hm0) as [Hsq _].
  pose proof (Z.sqrt_nonneg m') as Hq0.
  set (q := Z.sqrt m') in *.
  destruct (Zdigits2_bounds (Z.pos mu) ltac:(lia)) as [_ Hmu].
  cbn [Zdigits2] in Hmu. fold d in Hmu.
  assert (Hd : 1 <= d <= 53).
  { split; [unfold d; lia|]. revert Hcan. unfold fexp, emin, prec, emax. lia. }
  assert (Hdq : 2 * Zdigits2 q <= d + s + 1).
  { destruct (Z.eq_dec q 0) as [E|Hne];
      [rewrite E; change (Zdigits2 0) with 0; lia|].
    destruct (Zdigits2_bounds q ltac:(lia)) as [Hlow _].
    assert (1 <= Zdigits2 q) by (destruct q; cbn [Zdigits2]; lia).
    assert (Hlt : 2 ^ (Zdigits2 q - 1 + (Zdigits2 q - 1)) < 2 ^ (d + s)).
    { rewrite !Z.pow_add_r by lia.
      assert (0 < 2 ^ (Zdigits2 q - 1)) by (apply Z.pow_pos_nonneg; lia).
      nia. }
    apply Z.pow_lt_mono_r_iff in Hlt; lia. }
  set (l := if r =? 0 then loc_Exact
            else loc_Inexact (if r <=? q then Lt else Gt)).
  pose proof (binary_round_aux_finite false q e' l Hq0) as Hfin.
  assert (Hbound : Z.max e' (fexp prec emax (Zdigits2 q + e' + 1))
                   <= emax - prec - 1).
  { unfold s in Hdq. revert Hdq He' Heu Hd.
    unfold fexp, emin, prec, emax. lia. }
  specialize (Hfin ltac:(lia)).
  destruct (binary_round_aux prec emax false q e' l); try exact I. lia.
Qed.

(** A whole number of up to 53 bits is a double. *)

Lemma digits2_iter_xO n p :
  digits2_pos (Pos.iter xO p n) = (digits2_pos p + n)%positive.
Proof.
  induction n as [|n IH] using Pos.peano_ind.
  - cbn. lia.
  - rewrite Pos.iter_succ. cbn [digits2_pos]. rewrite IH. lia.
Qed.

Lemma binary_round_aux_exact s m e :
  Z.pos (digits2_pos m) = prec -> SpecFloat.emin prec emax <= e ->
  binary_round_aux prec emax s (Z.pos m) e loc_Exact
  = if e <=? emax - prec then S754_finite s m e else S754_infinity s.
Proof.
  intros Hd He. unfold binary_round_aux.
  assert (E : shr_fexp prec emax (Z.pos m) e loc_Exact
              = (shr_record_of_loc (Z.pos m) loc_Exact, e)).
  { unfold shr_fexp. cbn [Zdigits2]. rewrite Hd.
    replace (fexp prec emax (prec + e) - e) with 0; [reflexivity|].
    revert He. unfold fexp, emin, prec, emax. lia. }
  rewrite E. cbn [shr_record_of_loc shr_m loc_of_shr_record round_nearest_even].
  rewrite E. reflexivity.
Qed.

Lemma cast_double_spec z :
  1 <= z < 2 ^ prec ->
  exists m e, Prim2SF (Sql.cast_double z) = S754_finite false m e /\
              1 <= Z.pos (digits2_pos m) + e.
Proof.
  intros [H1 H2]. destruct z as [|p|p]; try lia.
  unfold Sql.cast_double. cbn [binary_normalize]. unfold binary_round.
  destruct (Zdigits2_bounds (Z.pos p) ltac:(lia)) as [Hlow _].
  cbn [Zdigits2] in Hlow.
  set (d := Z.pos (digits2_pos p)) in *.
  assert (Hd : 1 <= d <= prec).
  { split; [unfold d; lia|].
    destruct (Z_le_gt_dec d prec) as [|Hgt]; [assumption|exfalso].
    assert (2 ^ prec <= 2 ^ (d - 1)) by (apply Z.pow_le_mono_r; unfold prec in *; lia).
    lia. }
  rewrite Z.add_0_r.
  assert (Hf : fexp prec emax d = d - prec).
  { revert Hd. unfold fexp, emin, prec, emax. lia. }
  rewrite Hf.
  assert (Hal : exists m, shl_align p 0 (d - prec) = (m, d - prec) /\
                          Z.pos (digits2_pos m) = prec).
  { unfold shl_align. rewrite Z.sub_0_r.
    destruct (d - prec) as [|n|n] eqn:En.
    - exists p. split; [reflexivity|]. fold d. lia.
    - lia.
    - exists (Pos.iter xO p n). split; [reflexivity|].
      rewrite digits2_iter_xO, Pos2Z.inj_add. fold d. lia. }
  destruct Hal as (m & -> & Hm).
  rewrite binary_round_aux_exact; [|assumption|].
  2:{ revert Hd. unfold SpecFloat.emin, prec, emax. lia. }
  replace (d - prec <=? emax - prec) with true.
  2:{ symmetry. apply Z.leb_le. revert Hd. unfold prec, emax. lia. }
  exists m, (d - prec). split; [|lia].
  apply Prim2SF_SF2Prim. unfold SpecFloat.valid_binary, bounded, canonical_mantissa.
  rewrite Hm. replace (prec + (d - prec)) with d by lia. rewrite Hf.
  rewrite Z.eqb_refl. apply Z.leb_le. revert Hd. unfold prec, emax. lia.
Qed.

(** [is_finite] read on the specification side. *)

Lemma is_finite_spec f : is_finite f = sf_finite (Prim2SF f).
Proof.
  unfold is_finite, is_nan, is_infinity.
  rewrite !FloatAxioms.eqb_spec, abs_spec.
  change (Prim2SF infinity) with (S754_infinity false).
  destruct (Prim2SF f) as [[]|[]| |[] m e]; try reflexivity;
    try (rewrite SFeqb_refl by discriminate; reflexivity).
Qed.

(** The quotient of a finite square root by a whole number of seconds. *)

Lemma speed_finite (a : float) (z : Z) :
  1 <= z < 2 ^ prec ->
  is_finite (sqrt a) = true ->
  is_finite (sqrt a / Sql.cast_double z) = true.
Proof.
  intros Hz. rewrite !is_finite_spec, div_spec.
  destruct (cast_double_spec z Hz) as (m & e & -> & Hme).
  pose proof (SFsqrt_exponent (Prim2SF a) (Prim2SF_valid a)) as Hexp.
  pose proof (Prim2SF_valid (sqrt a)) as Hv.
  rewrite sqrt_spec in *. fold (SF64sqrt (Prim2SF a)) in *.
  destruct (SF64sqrt (Prim2SF a)) as [s| | |s mq eq]; try discriminate.
  - intros _. reflexivity.
  - intros _. apply SFdiv_finite; assumption.
Qed.

Lemma between_finite a :
  (1 <=? a)%float = true -> (a <=? 1500)%float = true -> is_finite a = true.
Proof.
  rewrite is_finite_spec, !leb_spec.
  destruct (Prim2SF a) as [[]|[]| |[] m e]; intros H1 H2; try reflexivity;
    vm_compute in H1, H2; congruence.
Qed.

Lemma v4_row_speed ord v0 r :
  WindowOrder ord ->
  Forall (fun a => Sql.epoch_range (t a)) v0 ->
  In r (v4 ord v0) ->
  exists s, In s (v2 ord v0) /\ r = speed (distance s) /\
            dt s = t2 (v2_row s) - t1 (v2_row s) /\
            1 <= v3_dt (v4_row r) < 2 ^ prec /\
            mps r = Some (dd (v4_row r)
                          / Sql.cast_double (v3_dt (v4_row r)))%float.
Proof.
  intros Hord Hrange Hr.
  unfold v4, v3 in Hr. rewrite map_map in Hr.
  apply in_map_iff in Hr. destruct Hr as (s & <- & Hs).
  exists s. split; [assumption|]. split; [reflexivity|].
  pose proof Hs as Hs'. unfold v2 in Hs'. apply in_map_iff in Hs'.
  destruct Hs' as (c & <- & Hc). apply filter_In in Hc.
  destruct Hc as [Hc Hlt]. apply Z.ltb_lt in Hlt.
  destruct (v1_origin ord Hord v0 c Hc) as (a & Ha & Ht1 & Ht2).
  rewrite Forall_forall in Hrange.
  assert (R1 : - 9223372036855 <= t1 c <= 9223372036854).
  { rewrite Ht1. auto using epoch_range_bound. }
  assert (R2 : - 9223372036855 <= t2 c <= 9223372036854).
  { destruct Ht2 as [->|(b & Hb & ->)]; [lia|auto using epoch_range_bound]. }
  assert (Hdt : Sql.long_sub (t2 c) (t1 c) = t2 c - t1 c).
  { unfold Sql.long_sub. apply wrap64_small.
    change (2 ^ 63) with 9223372036854775808. lia. }
  cbn [v2_row enrich dt speed distance v4_row v3_dt mps dd].
  rewrite Hdt. split; [reflexivity|].
  split; [change (2 ^ prec) with 9007199254740992; lia|].
  unfold Sql.div. destruct (t2 c - t1 c =? 0) eqn:E; [|reflexivity].
  apply Z.eqb_eq in E. lia.
Qed.

(** C10, as amended. For timestamps in the range of [unix_timestamp], every
    row of v4 comes from a row of v2 whose [dt] is [t2 - t1] without
    wrap-around and at least 1, and its [mps] is not NULL: it is the
    quotient of [dd] by [dt], and it is finite whenever [dd] is finite.
    Every row that the noise filter keeps has a finite [dd] and so a finite
    [mps]. *)
Theorem speed_divisor_at_least_one ord v0 :
  WindowOrder ord ->
  Forall (fun a => Sql.epoch_range (t a)) v0 ->
  Forall (fun r => exists s, In s (v2 ord v0) /\ r = speed (distance s) /\
                             dt s = t2 (v2_row s) - t1 (v2_row s) /\
                             1 <= v3_dt (v4_row r) /\
                             mps r = Some (dd (v4_row r)
                                           / Sql.cast_double (v3_dt (v4_row r)))%float /\
                             (is_finite (dd (v4_row r)) = true ->
                              finite_speed r = true))
         (v4 ord v0) /\
  Forall (fun r => is_finite (dd (v4_row r)) = true /\ finite_speed r = true)
         (v5 (v4 ord v0)).
Proof.
  intros Hord Hrange.
  assert (Hfin : forall r, In r (v4 ord v0) ->
                           is_finite (dd (v4_row r)) = true ->
                           finite_speed r = true).
  { intros r Hr Hdd.
    destruct (v4_row_speed ord v0 r Hord Hrange Hr)
      as (s & _ & Hrs & _ & Hz & Hmps).
    unfold finite_speed. rewrite Hmps. subst r.
    cbn [speed distance v4_row v3_dt dd] in *.
    apply speed_finite; assumption. }
  split; apply Forall_forall; intros r Hr.
  - destruct (v4_row_speed ord v0 r Hord Hrange Hr)
      as (s & Hs & Hrs & Hdt & Hz & Hmps).
    exists s. repeat split; try assumption; try lia. auto.
  - unfold v5 in Hr. apply filter_In in Hr. destruct Hr as [Hr Hclean].
    apply clean_iff in Hclean. destruct Hclean as (H1 & H2 & _).
    pose proof (between_finite _ H1 H2). auto.
Qed.

Lemma speed_divisor_at_least_one_witness :
  Forall (fun r => exists s,
            In s (v2 sort_by_t [mkV0 "A" 10 0 10; mkV0 "A" 0 0 0]) /\
            r = speed (distance s) /\
            dt s = t2 (v2_row s) - t1 (v2_row s) /\
            1 <= v3_dt (v4_row r) /\
            mps r = Some (dd (v4_row r)
                          / Sql.cast_double (v3_dt (v4_row r)))%float /\
            (is_finite (dd (v4_row r)) = true -> finite_speed r = true))
         (v4 sort_by_t [mkV0 "A" 10 0 10; mkV0 "A" 0 0 0]) /\
  Forall (fun r => is_finite (dd (v4_row r)) = true /\ finite_speed r = true)
         (v5 (v4 sort_by_t [mkV0 "A" 10 0 10; mkV0 "A" 0 0 0])).
Proof.
  apply (speed_divisor_at_least_one sort_by_t
           [mkV0 "A" 10 0 10; mkV0 "A" 0 0 0]).
  - exact sort_by_t_order.
  - repeat constructor; apply epoch_range_seconds; simpl; lia.
Defined.

(** C10, as stated, fails on finiteness: with [t2 - t1 = 1] the square of a
    displacement of [2^600] overflows, [dd] is infinite and so is [mps]. *)
Lemma speed_may_be_infinite :
  Forall (fun a => Sql.epoch_range (t a))
         [mkV0 "A" 0 0 0; mkV0 "A" 0x1p+600 0 1] /\
  map mps (v4 sort_by_t [mkV0 "A" 0 0 0; mkV0 "A" 0x1p+600 0 1])
  = [Some infinity] /\
  is_finite infinity = false.
Proof.
  split; [|split; vm_compute; reflexivity].
  repeat constructor; apply epoch_range_seconds; simpl; lia.
Qed.
